(** * Distribution-change attribution (dowhy.gcm.distribution_change)

    A shallow embedding of [src/dowhy/gcm/distribution_change.py] and the
    properties its specification states about it.

    Conventions of the embedding:
    - The distances and scores the code computes with are Python floats
      ([float]): finite values idealised as exact rationals, together with
      the infinities and NaN.  The p-values and significance levels, which
      are probabilities and are only compared, are rationals ([Q]).
    - Every Python function that raises, draws random numbers or calls a
      collaborator (mechanisms, independence test, Shapley estimator, ...)
      lives in the monad [M]: a state monad over a [World] (the process-wide
      random state, the trace of collaborator calls and the store of data
      tables) whose result is either a value or a raised exception.
    - Collaborators are section variables of type [ext A]: they read and
      advance the random state only, so that every entry of the trace is
      written by the code under study at the call site. *)

From Stdlib Require Import QArith Lqa.
From stdpp Require Import gmap strings list sorting pretty.

Open Scope Q_scope.
Open Scope stdpp_scope.
Open Scope nat_scope.

(** ** Exceptions and outcomes *)

Inductive exn : Type :=
  | ValueError
  | KeyError
  | IndexError
  | ZeroDivisionError
  | RuntimeError
  | NetworkXError
  | CollaboratorError (code : nat).

Inductive outcome (A : Type) : Type :=
  | Ok (a : A)
  | Raise (e : exn).
Arguments Ok {A} a.
Arguments Raise {A} e.

(** The value of a normal outcome, [d] for a raised exception. *)
Definition ok_value {A} (d : A) (r : outcome A) : A :=
  match r with Ok a => a | Raise _ => d end.

(** An external collaborator: a function of the random state. *)
Definition ext (Rng A : Type) : Type := Rng → outcome A * Rng.

(** Which of the two cloned causal models a call is about. *)
Inductive model_id : Type := OldModel | NewModel.

#[global] Instance model_id_eq_dec : EqDecision model_id.
Proof. solve_decision. Defined.

(** ** Floating-point numbers *)

(** A Python [float] (IEEE 754 binary64): a finite value, one of the two
    infinities, or NaN.  The finite values are idealised as exact rationals
    (no rounding, no overflow, one zero); the infinities and NaN follow the
    rules IEEE 754 gives them. *)
Inductive float : Type :=
  | Finite (q : Q)
  | PosInf
  | NegInf
  | NaN.

(** [-x] *)
Definition fopp (x : float) : float :=
  match x with
  | Finite a => Finite (- a)
  | PosInf => NegInf
  | NegInf => PosInf
  | NaN => NaN
  end.

(** [x + y]: NaN propagates, and [inf + (-inf)] is NaN. *)
Definition fadd (x y : float) : float :=
  match x, y with
  | Finite a, Finite b => Finite (a + b)
  | Finite _, PosInf => PosInf
  | Finite _, NegInf => NegInf
  | PosInf, (Finite _ | PosInf) => PosInf
  | NegInf, (Finite _ | NegInf) => NegInf
  | _, _ => NaN
  end.

(** [x - y] *)
Definition fsub (x y : float) : float := fadd x (fopp y).

(** [x / y] for a nonzero [y]: NaN propagates, [inf / inf] is NaN, a finite
    value over an infinity is zero.  Python raises [ZeroDivisionError] on a
    zero divisor; the source divides by [old_result] behind the test
    [old_result != 0] and by [run] in [py_div] only, so that case is never
    reached, and [fdiv] is NaN there. *)
Definition fdiv (x y : float) : float :=
  match x, y with
  | Finite a, Finite b => if Qeq_bool b 0 then NaN else Finite (a / b)
  | Finite _, (PosInf | NegInf) => Finite 0
  | PosInf, Finite b =>
    if Qeq_bool b 0 then NaN else if Qle_bool 0 b then PosInf else NegInf
  | NegInf, Finite b =>
    if Qeq_bool b 0 then NaN else if Qle_bool 0 b then NegInf else PosInf
  | _, _ => NaN
  end.

(** [x <= y]: false as soon as one side is NaN. *)
Definition fle (x y : float) : bool :=
  match x, y with
  | Finite a, Finite b => Qle_bool a b
  | Finite _, PosInf => true
  | PosInf, PosInf => true
  | NegInf, (Finite _ | PosInf | NegInf) => true
  | _, _ => false
  end.

(** [x < y] *)
Definition flt (x y : float) : bool :=
  match x, y with
  | Finite a, Finite b => negb (Qle_bool b a)
  | Finite _, PosInf => true
  | NegInf, (Finite _ | PosInf) => true
  | _, _ => false
  end.

(** [x == y]: NaN equals nothing, itself included. *)
Definition feqb (x y : float) : bool :=
  match x, y with
  | Finite a, Finite b => Qeq_bool a b
  | PosInf, PosInf => true
  | NegInf, NegInf => true
  | _, _ => false
  end.

(** [x != y] *)
Definition fneb (x y : float) : bool := negb (feqb x y).

Definition is_finite (x : float) : Prop :=
  match x with Finite _ => True | _ => False end.

(** The two floats denote the same value: the same rational number, the same
    infinity, or both NaN. *)
Definition same_float (x y : float) : Prop :=
  match x, y with
  | Finite a, Finite b => (a == b)%Q
  | PosInf, PosInf => True
  | NegInf, NegInf => True
  | NaN, NaN => True
  | _, _ => False
  end.

(** Python's [int] converted to [float]. *)
Definition float_of_nat (n : nat) : float := Finite (inject_Z (Z.of_nat n)).

(** The running total of a sequence of contributions, accumulated from the
    left exactly as [result += ...] does, starting from [start]. *)
Definition running_total (start : float) (cs : list float) : float :=
  foldl fadd start cs.

(** Python's [result / run] with [run] an [int]: division by zero raises. *)
Definition py_div (result : float) (run : nat) : outcome float :=
  match run with
  | O => Raise ZeroDivisionError
  | S _ => Ok (fdiv result (float_of_nat run))
  end.

(** The early-stopping test of the Monte-Carlo loop, as the source writes it:
    [old_result != 0 and (1 - result / old_result) <= early_stopping_percentage]. *)
Definition early_stop (old_result result early_stopping_percentage : float) : bool :=
  fneb old_result (Finite 0)
  && fle (fsub (Finite 1) (fdiv result old_result)) early_stopping_percentage.

(** The order and the difference from zero of floats as propositions. *)
Definition float_le (x y : float) : Prop :=
  match x, y with
  | Finite a, Finite b => (a <= b)%Q
  | Finite _, PosInf => True
  | PosInf, PosInf => True
  | NegInf, (Finite _ | PosInf | NegInf) => True
  | _, _ => False
  end.

Definition float_nonzero (x : float) : Prop :=
  match x with Finite a => ¬ (a == 0)%Q | _ => True end.

(** The same condition as a proposition, in the words of the specification:
    the previous total is nonzero and the relative change is within the
    threshold. *)
Definition relative_change_within (old_result result threshold : float) : Prop :=
  float_nonzero old_result
  ∧ float_le (fsub (Finite 1) (fdiv result old_result)) threshold.

Lemma fle_spec x y : fle x y = true ↔ float_le x y.
Proof.
  destruct x, y; simpl; try apply Qle_bool_iff; try done.
Qed.

Lemma fneb_zero_spec x : fneb x (Finite 0) = true ↔ float_nonzero x.
Proof.
  unfold fneb. rewrite negb_true_iff. destruct x; simpl; try done.
  split.
  - intros E Heq. apply Qeq_bool_iff in Heq. congruence.
  - intros Hne. destruct (Qeq_bool q 0) eqn:E; [|done].
    by apply Qeq_bool_iff in E.
Qed.

Lemma early_stop_spec old_result result thr :
  early_stop old_result result thr = true
  ↔ relative_change_within old_result result thr.
Proof.
  unfold early_stop, relative_change_within.
  by rewrite andb_true_iff, fneb_zero_spec, fle_spec.
Qed.

(** A finite, strictly positive total that grows by a nonnegative amount
    passes the early-stopping test of any nonnegative threshold. *)
Lemma early_stop_growing (q : Q) (d thr : float) :
  (0 < q)%Q → fle (Finite 0) d = true → fle (Finite 0) thr = true →
  early_stop (Finite q) (fadd (Finite q) d) thr = true.
Proof.
  intros Hq Hd Hthr. apply early_stop_spec. split; [simpl; lra|].
  assert (Qeq_bool q 0 = false) as Hne.
  { destruct (Qeq_bool q 0) eqn:E; [|done]. apply Qeq_bool_iff in E. lra. }
  assert (Qle_bool 0 q = true) as Hle by (apply Qle_bool_iff; lra).
  destruct d as [b| | |]; try done; simpl; rewrite Hne, ?Hle; simpl.
  - apply fle_spec in Hd. simpl in Hd.
    assert (0 <= b / q)%Q as Hdiv by (apply Qle_shift_div_l; lra).
    assert ((q + b) / q == 1 + b / q)%Q as Heq by (field; lra).
    destruct thr as [t| | |]; try done. apply fle_spec in Hthr. simpl in *. lra.
  - by destruct thr.
Qed.

(** Node identifiers are hashable and, for [sorted], comparable. *)
Class NodeOrder (node : Type) : Type := node_le : relation node.

Section Gcm.
Context `{node_countable : Countable node}.
Context `{node_order : NodeOrder node}
        `{node_le_dec : !RelDecision (node_le (node:=node))}.
Context {Val Mech Rng ShapleyConfig : Type}.

(** ** numpy arrays *)

(** One- and two-dimensional arrays; a two-dimensional array is the list of
    its rows. *)
Inductive ndarray : Type :=
  | Arr1 (xs : list Val)
  | Arr2 (rows : list (list Val)).

(** [arr.shape[0]] *)
Definition shape0 (arr : ndarray) : nat :=
  match arr with Arr1 xs => length xs | Arr2 rows => length rows end.

(** Modelled from the spec: [dowhy.gcm.util.general.shape_into_2d], which
    is not among the sources; "two 1-D (or 2-D, reshaped to 2-D) numeric
    sample arrays": a 1-D array becomes a single column. *)
Definition shape_into_2d (arr : ndarray) : list (list Val) :=
  match arr with Arr1 xs => (λ x, [x]) <$> xs | Arr2 rows => rows end.

(** [np.vstack([a, b])] on two-dimensional arrays: the rows of [a] followed
    by the rows of [b]. *)
Definition np_vstack (a b : list (list Val)) : list (list Val) := a ++ b.

(** [repmat(row, m, 1)]: [m] copies of [row], one per line. *)
Definition repmat (row : list Val) (m : nat) : list (list Val) := replicate m row.

(** ** Data tables *)

(** A pandas DataFrame as the list of its rows, each row a finite map from
    column name to cell. *)
Definition DataFrame : Type := list (gmap node Val).

(** ** Causal graphs and models *)

Record NodeAttrs : Type := mkNodeAttrs {
  CAUSAL_MECHANISM : option Mech;
  PARENTS_DURING_FIT : option (list node)
}.

Record DirectedGraph : Type := mkDirectedGraph {
  nodes : list node;
  edges : list (node * node);
  attrs : gmap node NodeAttrs
}.

Record ProbabilisticCausalModel : Type := mkPCM { graph : DirectedGraph }.

(** ** The trace of collaborator calls *)

Inductive Event : Type :=
  | EvIndependenceTest (joint_target_samples : list (list Val))
      (data_set_indices : list string)
      (joint_parent_data : option (list (list Val)))
  | EvMechanismChangeTest (target_old target_new : ndarray)
      (parents_old parents_new : option ndarray)
  | EvMultipletests (p_values : list Q)
  | EvValidateDag (g : DirectedGraph)
  | EvGraphFactory (g : DirectedGraph)
  | EvCloneCausalModels (source destination : DirectedGraph)
  | EvFit (which : model_id) (target : node) (training_data : DataFrame)
  | EvDrawSamples (g : DirectedGraph) (num_samples : nat)
  | EvDifference (a b : ndarray)
  | EvShapley (num_players : nat)
  | EvMechClone (mechanism : Mech)
  | EvMechFit (mechanism : Mech) (X Y : list (list Val))
  | EvMechDraw (mechanism : Mech) (parent_samples : list (list Val)).

Record World : Type := mkWorld {
  rng : Rng;
  log : list Event;
  frames : list DataFrame
}.

(** ** The effect monad *)

Definition M (A : Type) : Type := World → outcome A * World.

#[global] Instance M_ret : MRet M := λ A a w, (Ok a, w).
#[global] Instance M_bind : MBind M := λ A B f m w,
  match m w with
  | (Ok a, w') => f a w'
  | (Raise e, w') => (Raise e, w')
  end.

Definition raise {A} (e : exn) : M A := λ w, (Raise e, w).

Definition lift_outcome {A} (r : outcome A) : M A := λ w, (r, w).

Definition lift_option {A} (e : exn) (o : option A) : M A :=
  match o with Some a => mret a | None => raise e end.

(** Record a call in the trace. *)
Definition emit (ev : Event) : M unit :=
  λ w, (Ok tt, mkWorld (rng w) (log w ++ [ev]) (frames w)).

(** Run a collaborator on the current random state. *)
Definition run_ext {A} (f : ext Rng A) : M A :=
  λ w, let '(r, g) := f (rng w) in (r, mkWorld g (log w) (frames w)).

(** A collaborator call: traced, then run. *)
Definition call {A} (ev : Event) (f : ext Rng A) : M A :=
  _ ← emit ev; run_ext f.

(** The [for] statement: run [body] on every element of [xs], threading the
    loop-carried state.  A loop that only appends to a list, and a list
    comprehension, are [mapM] in [M]. *)
Fixpoint for_each {A S} (xs : list A) (s : S) (body : A → S → M S) : M S :=
  match xs with
  | [] => mret s
  | x :: rest => s' ← body x s; for_each rest s' body
  end.

(** A Python [dict] built by successive assignments: a later assignment of
    the same key overrides an earlier one. *)
Definition py_dict {V} (items : list (node * V)) : gmap node V :=
  foldl (λ d kv, <[kv.1 := kv.2]> d) ∅ items.

(** ** The store of data tables *)

(** The tables the caller passes in are objects of the store, named by their
    position; only [frame_append] adds one. *)
Definition read_frame (data : nat) : M DataFrame :=
  λ w, match frames w !! data with
       | Some df => (Ok df, w)
       | None => (Raise RuntimeError, w)
       end.

Definition alloc_frame (df : DataFrame) : M nat :=
  λ w, (Ok (length (frames w)), mkWorld (rng w) (log w) (frames w ++ [df])).

(** [df[n].to_numpy()]: one column; a missing column is a [KeyError]. *)
Definition column_of (df : DataFrame) (n : node) : M ndarray :=
  lift_option KeyError (Arr1 <$> mapM (λ row : gmap node Val, row !! n) df).

Definition column (data : nat) (n : node) : M ndarray :=
  df ← read_frame data; column_of df n.

(** [df[ns].to_numpy()]: several columns, as a two-dimensional array. *)
Definition columns (data : nat) (ns : list node) : M ndarray :=
  df ← read_frame data;
  lift_option KeyError
    (Arr2 <$> mapM (λ row : gmap node Val, mapM (λ n, row !! n) ns) df).

(** [df[list(ns)]]: a new table holding the columns [ns] only. *)
Definition select_columns (data : nat) (ns : list node) : M nat :=
  df ← read_frame data;
  rows ← lift_option KeyError
    (mapM (λ row : gmap node Val,
             if forallb (λ n, bool_decide (is_Some (row !! n))) ns
             then Some (filter (λ kv, kv.1 ∈ ns) row) else None) df);
  alloc_frame rows.

(** [old_data.append(new_data, ignore_index=True, sort=True)]: a new table,
    the rows of [old_data] followed by those of [new_data]; neither operand
    is written to. *)
Definition frame_append (old_data new_data : nat) : M nat :=
  a ← read_frame old_data;
  b ← read_frame new_data;
  alloc_frame (a ++ b).

(** ** Collaborators *)

(** The capability interface of a causal mechanism
    ([ConditionalStochasticModel]): clone, fit, draw samples. *)
Class ConditionalStochasticModel : Type := {
  mech_clone : Mech → Mech;
  mech_fit : Mech → list (list Val) → list (list Val) → ext Rng Mech;
  mech_draw_samples : Mech → list (list Val) → ext Rng ndarray
}.
Context `{mechanism_interface : !ConditionalStochasticModel}.

(** The collaborators the module calls: library functions, the callable
    parameters of the entry points and the functions of [dowhy.gcm] that
    are not among the sources. *)
Class Collaborators : Type := {
  (** [np.random.choice(a, size, replace=False)] for a non-negative [size] *)
  choice : nat → nat → ext Rng (list nat);
  (** [statsmodels.stats.multitest.multipletests(pvals, alpha, method)[0]] *)
  multipletests : list Q → Q → string → ext Rng (list bool);
  (** the callable parameters of the entry points *)
  independence_test :
    list (list Val) → list string → option (list (list Val)) → ext Rng Q;
  mechanism_change_func :
    ndarray → ndarray → option ndarray → option ndarray → ext Rng Q;
  difference_estimation_func : ndarray → ndarray → ext Rng float;
  graph_factory : DirectedGraph → DirectedGraph;
  (** [dowhy.gcm.fitting_sampling]: fitting one node's mechanism of a model
      on a table (the result is the fitted mechanism of the node), and
      drawing joint samples from a model *)
  fit_causal_model_of_target :
    ProbabilisticCausalModel → node → DataFrame → ext Rng Mech;
  draw_samples : ProbabilisticCausalModel → nat → ext Rng DataFrame;
  (** [dowhy.gcm.shapley.estimate_shapley_values]: it evaluates the set
      function it is given on subsets of its own choosing *)
  estimate_shapley_values :
    (list Z → M float) → nat → option ShapleyConfig → M (list float)
}.
Context `{collaborators : !Collaborators}.

(** The contract of sampling without replacement: [size] distinct positions
    below [a], and a failure only when more are asked for than there are. *)
Definition choice_contract : Prop :=
  ∀ a size g,
    match choice a size g with
    | (Ok idx, _) => length idx = size ∧ NoDup idx ∧ ∀ i, i ∈ idx → i < a
    | (Raise _, _) => a < size
    end.

(** [np.random.choice] with the [int] size the source computes: a negative
    size is a [ValueError]. *)
Definition np_random_choice (a : nat) (size : Z) : M (list nat) :=
  if (size <? 0)%Z then raise ValueError
  else run_ext (choice a (Z.to_nat size)).

(** [arr[indices]]: the rows at the given positions, in that order. *)
Definition take_rows {A} (rows : list A) (indices : list nat) : M (list A) :=
  lift_option IndexError (mapM (λ i, rows !! i) indices).

Definition index_array (arr : ndarray) (indices : list nat) : M ndarray :=
  match arr with
  | Arr1 xs => xs' ← take_rows xs indices; mret (Arr1 xs')
  | Arr2 rows => rows' ← take_rows rows indices; mret (Arr2 rows')
  end.

(** ** The mechanism-change test *)

(** [np.ones(n)]: a float64 array of ones.  The label array only ever holds
    whole numbers, so its cells are kept as integers. *)
Definition np_ones (n : nat) : list Z := replicate n 1%Z.

(** [arr[k:] = v] *)
Definition assign_from (k : nat) (v : Z) (arr : list Z) : list Z :=
  take k arr ++ replicate (length arr - k) v.

(** [arr.astype(str)] on a float64 array: numpy prints each cell with its
    shortest round-trip representation, which for a whole number [z] is the
    decimal numeral of [z] followed by [.0]. *)
Definition astype_str (arr : list Z) : list string :=
  (λ z : Z, pretty z +:+ ".0") <$> arr.

Definition mechanism_change_test (target_original_data target_new_data : ndarray)
    (parents_original_data parents_new_data : option ndarray) : M Q :=
  match parents_original_data, parents_new_data with
  | Some _, None => raise ValueError
  | None, Some _ => raise ValueError
  | _, _ =>
    let num_samples_for_testing :=
      min (shape0 target_original_data) (shape0 target_new_data) in
    let data_set_indices := np_ones (num_samples_for_testing * 2) in
    let data_set_indices := assign_from num_samples_for_testing (-1) data_set_indices in
    let data_set_indices := astype_str data_set_indices in
    original_indices ← np_random_choice (shape0 target_original_data)
                          (Z.of_nat num_samples_for_testing);
    new_indices ← np_random_choice (shape0 target_new_data)
                     (Z.of_nat num_samples_for_testing);
    target_original ← index_array target_original_data original_indices;
    target_new ← index_array target_new_data new_indices;
    let joint_target_samples :=
      np_vstack (shape_into_2d target_original) (shape_into_2d target_new) in
    match parents_original_data, parents_new_data with
    | Some parents_original_data, Some parents_new_data =>
      parents_original ← index_array parents_original_data original_indices;
      parents_new ← index_array parents_new_data new_indices;
      let joint_parent_data :=
        np_vstack (shape_into_2d parents_original) (shape_into_2d parents_new) in
      call (EvIndependenceTest joint_target_samples data_set_indices
              (Some joint_parent_data))
           (independence_test joint_target_samples data_set_indices
              (Some joint_parent_data))
    | _, _ =>
      call (EvIndependenceTest joint_target_samples data_set_indices None)
           (independence_test joint_target_samples data_set_indices None)
    end
  end.

(** ** Graph utilities ([dowhy.gcm.graph], [networkx]) *)

(** [sorted(...)] on node identifiers: a stable merge sort. *)
Definition sorted (l : list node) : list node := merge_sort node_le l.

(** [graph.predecessors(n)]: the sources of the edges into [n]. *)
Definition predecessors (g : DirectedGraph) (n : node) : list node :=
  (filter (λ e : node * node, e.2 = n) (edges g)).*1.

(** Modelled from the spec: [is_root_node], not among the sources; "a graph
    node with no incoming edges (no modeled causes)". *)
Definition is_root_node (g : DirectedGraph) (n : node) : bool :=
  bool_decide (predecessors g n = []).

(** Modelled from the spec: [get_ordered_predecessors], not among the
    sources; "a deterministic per-node parent ordering": the parents in
    sorted order. *)
Definition get_ordered_predecessors (g : DirectedGraph) (n : node) : list node :=
  sorted (predecessors g n).

(** The nodes from which [seen] is reached in at most [fuel] steps, [seen]
    included. *)
Fixpoint backward_closure (fuel : nat) (g : DirectedGraph) (seen : gset node)
    : gset node :=
  match fuel with
  | O => seen
  | S fuel' =>
    backward_closure fuel' g
      (seen ∪ list_to_set (elements seen ≫= predecessors g))
  end.

(** Modelled from the spec: [node_connected_subgraph_view], not among the
    sources; "the subgraph reachable-and-reaching the target node (ancestors
    + target, edges among them)".  As with networkx, a target that is not a
    node of the graph is an error. *)
Definition node_connected_subgraph_view (g : DirectedGraph) (target_node : node)
    : M DirectedGraph :=
  if decide (target_node ∈ nodes g) then
    let keep := backward_closure (length (nodes g)) g {[target_node]} in
    mret (mkDirectedGraph
            (filter (λ n, n ∈ keep) (nodes g))
            (filter (λ e : node * node, e.1 ∈ keep ∧ e.2 ∈ keep) (edges g))
            (filter (λ kv : node * NodeAttrs, kv.1 ∈ keep) (attrs g)))
  else raise NetworkXError.

(** One round of the acyclicity check: keep the nodes that still have an
    incoming edge from a remaining node. *)
Definition with_incoming (es : list (node * node)) (remaining : list node)
    : list node :=
  filter (λ n, Exists (λ e : node * node, e.2 = n ∧ e.1 ∈ remaining) es) remaining.

Fixpoint peel_sources (fuel : nat) (es : list (node * node))
    (remaining : list node) : list node :=
  match fuel with
  | O => remaining
  | S fuel' => peel_sources fuel' es (with_incoming es remaining)
  end.

(** [nx.is_directed_acyclic_graph]: sources are removed round after round;
    the graph is acyclic when nothing remains. *)
Definition is_directed_acyclic_graph (g : DirectedGraph) : bool :=
  bool_decide (peel_sources (length (nodes g)) (edges g) (nodes g) = []).

(** Modelled from the spec: [validate_causal_dag], not among the sources;
    "must be acyclic (validated before use)", "non-acyclic graph passed
    where a DAG is required" is a structural validation error. *)
Definition validate_causal_dag (g : DirectedGraph) : M unit :=
  _ ← emit (EvValidateDag g);
  if is_directed_acyclic_graph g then mret tt else raise RuntimeError.

(** [graph.nodes[n][CAUSAL_MECHANISM] = mechanism] *)
Definition set_node_mechanism (g : DirectedGraph) (n : node) (mechanism : Mech)
    : DirectedGraph :=
  mkDirectedGraph (nodes g) (edges g)
    (<[n := mkNodeAttrs (Some mechanism) (attrs g !! n ≫= PARENTS_DURING_FIT)]>
       (attrs g)).

(** [graph.nodes[n][PARENTS_DURING_FIT] = parents] *)
Definition set_node_parents (g : DirectedGraph) (n : node) (parents : list node)
    : DirectedGraph :=
  mkDirectedGraph (nodes g) (edges g)
    (<[n := mkNodeAttrs (attrs g !! n ≫= CAUSAL_MECHANISM) (Some parents)]>
       (attrs g)).

(** Modelled from the spec: [clone_causal_models], not among the sources;
    "clone into two independent models sharing structure but not mechanism
    state": every node of the destination receives a clone of the mechanism
    the source holds for it, if it holds one. *)
Definition clone_causal_models (source destination : DirectedGraph)
    : M DirectedGraph :=
  _ ← emit (EvCloneCausalModels source destination);
  mret (foldl (λ dst n,
                 match attrs source !! n ≫= CAUSAL_MECHANISM with
                 | Some mechanism => set_node_mechanism dst n (mech_clone mechanism)
                 | None => dst
                 end) destination (nodes destination)).

(** [ProbabilisticCausalModel.causal_mechanism] and
    [ProbabilisticCausalModel.set_causal_mechanism]: reads and writes of the
    node attribute; an absent node or attribute is a [KeyError]. *)
Definition causal_mechanism (causal_model : ProbabilisticCausalModel) (n : node)
    : M Mech :=
  lift_option KeyError (attrs (graph causal_model) !! n ≫= CAUSAL_MECHANISM).

Definition set_causal_mechanism (causal_model : ProbabilisticCausalModel)
    (n : node) (mechanism : Mech) : M ProbabilisticCausalModel :=
  if decide (n ∈ nodes (graph causal_model))
  then mret (mkPCM (set_node_mechanism (graph causal_model) n mechanism))
  else raise KeyError.

(** The traced call of the graph factory. *)
Definition copy_graph (g : DirectedGraph) : M DirectedGraph :=
  _ ← emit (EvGraphFactory g); mret (graph_factory g).

(** ** Detecting the mechanisms that changed *)

(** The body of the loop of [_check_significant_mechanism_change]: the
    p-value of one node. *)
Definition p_value_of_node (g : DirectedGraph) (old_data new_data : nat)
    (n : node) : M Q :=
  parents ←
    (if is_root_node g n then mret (None, None)
     else
       parents_org_data ← columns old_data (get_ordered_predecessors g n);
       parents_new_data ← columns new_data (get_ordered_predecessors g n);
       mret (Some parents_org_data, Some parents_new_data));
  target_old ← column old_data n;
  target_new ← column new_data n;
  call (EvMechanismChangeTest target_old target_new parents.1 parents.2)
       (mechanism_change_func target_old target_new parents.1 parents.2).

(** The multiple-testing corrector: the decisions [successes] computed from
    [all_p_values]. *)
Definition significant_p_values (all_p_values : list Q) (significance_level : Q)
    (fdr_control_method : option string) : M (list bool) :=
  match fdr_control_method with
  | None => mret ((λ p, Qle_bool p significance_level) <$> all_p_values)
  | Some method =>
    call (EvMultipletests all_p_values)
         (multipletests all_p_values significance_level method)
  end.

Definition _check_significant_mechanism_change (g : DirectedGraph)
    (old_data new_data : nat) (significance_level : Q)
    (fdr_control_method : option string) : M (gmap node bool) :=
  all_p_values ← mapM (p_value_of_node g old_data new_data) (nodes g);
  successes ← significant_p_values all_p_values significance_level fdr_control_method;
  mret (py_dict (zip (nodes g) successes)).

(** ** The mechanism refitter *)

(** The refitter holds two model objects, [causal_model_old] and
    [causal_model_new], and passes them to [fit_causal_model_of_target] by
    reference: [models] is the state of the two objects, [model_of which]
    reads the object a reference names and [with_model which] writes it. *)
Definition model_of (which : model_id)
    (models : ProbabilisticCausalModel * ProbabilisticCausalModel)
    : ProbabilisticCausalModel :=
  match which with OldModel => models.1 | NewModel => models.2 end.

Definition with_model (which : model_id) (causal_model : ProbabilisticCausalModel)
    (models : ProbabilisticCausalModel * ProbabilisticCausalModel)
    : ProbabilisticCausalModel * ProbabilisticCausalModel :=
  match which with
  | OldModel => (causal_model, models.2)
  | NewModel => (models.1, causal_model)
  end.

(** The model whose node [n] holds [mechanism], the graph otherwise as it
    was. *)
Definition with_mechanism (causal_model : ProbabilisticCausalModel) (n : node)
    (mechanism : Mech) : ProbabilisticCausalModel :=
  mkPCM (set_node_mechanism (graph causal_model) n mechanism).

(** Modelled from the spec: the effect of [fit_causal_model_of_target],
    which is not among the sources, on the model it is given; it "mutates
    the mechanism objects attached to both models in place": the node's
    mechanism becomes the fitted one, the graph is otherwise unchanged.  The
    call [fit_causal_model_of_target(which, n, training_data)] is traced
    with the reference and the table it is given, and runs on the current
    state of the object the reference names. *)
Definition fit_target (which : model_id)
    (models : ProbabilisticCausalModel * ProbabilisticCausalModel)
    (n : node) (training_data : nat)
    : M (ProbabilisticCausalModel * ProbabilisticCausalModel) :=
  df ← read_frame training_data;
  let causal_model := model_of which models in
  mechanism ← call (EvFit which n df) (fit_causal_model_of_target causal_model n df);
  mret (with_model which (with_mechanism causal_model n mechanism) models).

Definition _fit_accounting_for_mechanism_change
    (causal_model_old causal_model_new : ProbabilisticCausalModel)
    (old_data new_data : nat) (significance_level : Q)
    (fdr_control_method : option string)
    : M (gmap node bool * (ProbabilisticCausalModel * ProbabilisticCausalModel)) :=
  mechanism_changed_for_node ←
    _check_significant_mechanism_change (graph causal_model_old) old_data new_data
      significance_level fdr_control_method;
  joint_data ← frame_append old_data new_data;
  models ←
    for_each (nodes (graph causal_model_new)) (causal_model_old, causal_model_new)
      (λ n models,
         changed ← lift_option KeyError (mechanism_changed_for_node !! n);
         if changed : bool then
           models ← fit_target OldModel models n old_data;
           fit_target NewModel models n new_data
         else
           models ← fit_target OldModel models n joint_data;
           fit_target NewModel models n joint_data);
  mret (mechanism_changed_for_node, models).

(** ** The Shapley attribution driver *)

(** The traced call [draw_samples(causal_model, num_samples)[target_node].to_numpy()]. *)
Definition draw_target_samples (causal_model : ProbabilisticCausalModel)
    (num_samples : nat) (target_node : node) : M ndarray :=
  df ← call (EvDrawSamples (graph causal_model) num_samples)
            (draw_samples causal_model num_samples);
  column_of df target_node.

(** Lines 251-254: the body of the loop over the players. *)
Definition assign_mechanism (nodes_ : list node)
    (old_causal_models new_causal_models : list Mech) (subset : list Z)
    (i : nat) (causal_model : ProbabilisticCausalModel)
    : M ProbabilisticCausalModel :=
  s ← lift_option IndexError (subset !! i);
  n ← lift_option IndexError (nodes_ !! i);
  if bool_decide (s = 1%Z) then
    mechanism ← lift_option IndexError (new_causal_models !! i);
    set_causal_mechanism causal_model n mechanism
  else
    mechanism ← lift_option IndexError (old_causal_models !! i);
    set_causal_mechanism causal_model n mechanism.

(** Line 257: the body of the loop over the nodes. *)
Definition attach_parents (n : node) (causal_model : ProbabilisticCausalModel)
    : M ProbabilisticCausalModel :=
  mret (mkPCM (set_node_parents (graph causal_model) n
                 (get_ordered_predecessors (graph causal_model) n))).

(** Lines 247-257: the hybrid model of a subset.  The graph is copied, then
    the i-th sorted node receives the i-th new or old mechanism, then every
    node's ordered parents are attached. *)
Definition hybrid_model (causal_model_old : ProbabilisticCausalModel)
    (old_causal_models new_causal_models : list Mech) (subset : list Z)
    : M ProbabilisticCausalModel :=
  g ← copy_graph (graph causal_model_old);
  let causal_model := mkPCM g in
  let nodes_ := sorted (nodes (graph causal_model)) in
  causal_model ←
    for_each (seq 0 (length old_causal_models)) causal_model
      (assign_mechanism nodes_ old_causal_models new_causal_models subset);
  for_each (nodes (graph causal_model)) causal_model attach_parents.

Definition attribution_set_function (causal_model_old : ProbabilisticCausalModel)
    (old_causal_models new_causal_models : list Mech)
    (target_samples_old : ndarray) (target_node : node) (num_samples : nat)
    (subset : list Z) : M float :=
  if forallb (λ s, bool_decide (s = 0%Z)) subset then mret (Finite 0)
  else
    causal_model ← hybrid_model causal_model_old old_causal_models
                     new_causal_models subset;
    target_samples_new ← draw_target_samples causal_model num_samples target_node;
    call (EvDifference target_samples_old target_samples_new)
         (difference_estimation_func target_samples_old target_samples_new).

(** Line 265: [{x: attributions[i] for i, x in enumerate(sorted(nodes))}]. *)
Definition attribution_dict (sorted_nodes : list node) (attributions : list float)
    : M (gmap node float) :=
  for_each (imap (λ i x, (i, x)) sorted_nodes) ∅ (λ ix d,
    a ← lift_option IndexError (attributions !! ix.1);
    mret (<[ix.2 := a]> d)).

Definition __estimate_marginal_distribution_change
    (causal_model_old causal_model_new : ProbabilisticCausalModel)
    (target_node : node) (num_samples : nat)
    (shapley_config : option ShapleyConfig) : M (gmap node float) :=
  old_causal_models ←
    mapM (causal_mechanism causal_model_old) (sorted (nodes (graph causal_model_old)));
  new_causal_models ←
    mapM (causal_mechanism causal_model_new) (sorted (nodes (graph causal_model_new)));
  target_samples_old ← draw_target_samples causal_model_old num_samples target_node;
  _ ← emit (EvShapley (length old_causal_models));
  attributions ←
    estimate_shapley_values
      (attribution_set_function causal_model_old old_causal_models
         new_causal_models target_samples_old target_node num_samples)
      (length old_causal_models) shapley_config;
  attribution_dict (sorted (nodes (graph causal_model_old))) attributions.

Definition distribution_change_of_graphs
    (causal_model_old causal_model_new : ProbabilisticCausalModel)
    (target_node : node) (num_samples : nat)
    (shapley_config : option ShapleyConfig) : M (gmap node float) :=
  _ ← validate_causal_dag (graph causal_model_old);
  _ ← validate_causal_dag (graph causal_model_new);
  view_old ← node_connected_subgraph_view (graph causal_model_old) target_node;
  view_new ← node_connected_subgraph_view (graph causal_model_new) target_node;
  __estimate_marginal_distribution_change (mkPCM view_old) (mkPCM view_new)
    target_node num_samples shapley_config.

(** ** The distribution-change orchestrator *)

(** Lines 124-130: the two cloned models. *)
Definition clone_old_and_new (causal_model : ProbabilisticCausalModel)
    (target_node : node) : M (ProbabilisticCausalModel * ProbabilisticCausalModel) :=
  view ← node_connected_subgraph_view (graph causal_model) target_node;
  causal_graph_old ← copy_graph view;
  causal_graph_old ← clone_causal_models (graph causal_model) causal_graph_old;
  let causal_model_old := mkPCM causal_graph_old in
  causal_graph_new ← copy_graph causal_graph_old;
  causal_graph_new ← clone_causal_models causal_graph_old causal_graph_new;
  let causal_model_new := mkPCM causal_graph_new in
  mret (causal_model_old, causal_model_new).

(** The result is the attributions, together with the additional items when
    [return_additional_info] is set. *)
Definition distribution_change (causal_model : ProbabilisticCausalModel)
    (old_data new_data : nat) (target_node : node) (num_samples : nat)
    (mechanism_change_test_significance_level : Q)
    (mechanism_change_test_fdr_control_method : option string)
    (return_additional_info : bool) (shapley_config : option ShapleyConfig)
    : M (gmap node float
         * option (gmap node bool
                   * (ProbabilisticCausalModel * ProbabilisticCausalModel))) :=
  models ← clone_old_and_new causal_model target_node;
  let causal_model_old := models.1 in
  let causal_model_new := models.2 in
  old_columns ← select_columns old_data (nodes (graph causal_model_old));
  new_columns ← select_columns new_data (nodes (graph causal_model_new));
  fitted ← _fit_accounting_for_mechanism_change causal_model_old causal_model_new
             old_columns new_columns mechanism_change_test_significance_level
             mechanism_change_test_fdr_control_method;
  let mechanism_changes := fitted.1 in
  let causal_model_old := fitted.2.1 in
  let causal_model_new := fitted.2.2 in
  attributions ← distribution_change_of_graphs causal_model_old causal_model_new
                   target_node num_samples shapley_config;
  if return_additional_info
  then mret (attributions, Some (mechanism_changes, (causal_model_old, causal_model_new)))
  else mret (attributions, None).

(** ** The anomaly-score estimator *)

(** Lines 378-380: the contribution of one pooled parent row. *)
Definition row_contribution (causal_model_original causal_model_anomaly : Mech)
    (num_joint_samples : nat) (joint_parent_sample : list Val) : M float :=
  let samples := repmat joint_parent_sample num_joint_samples in
  a ← call (EvMechDraw causal_model_original samples)
           (mech_draw_samples causal_model_original samples);
  b ← call (EvMechDraw causal_model_anomaly samples)
           (mech_draw_samples causal_model_anomaly samples);
  call (EvDifference a b) (difference_estimation_func a b).

(** Lines 375-386: the loop, with its loop-carried [result] and [run]. *)
Fixpoint monte_carlo_loop (causal_model_original causal_model_anomaly : Mech)
    (num_joint_samples : nat) (early_stopping_percentage : float)
    (joint_parent_samples : list (list Val)) (result : float) (run : nat)
    : M (float * nat) :=
  match joint_parent_samples with
  | [] => mret (result, run)
  | joint_parent_sample :: rest =>
    let old_result := result in
    d ← row_contribution causal_model_original causal_model_anomaly
          num_joint_samples joint_parent_sample;
    let result := fadd result d in
    let run := S run in
    if early_stop old_result result early_stopping_percentage
    then mret (result, run)
    else monte_carlo_loop causal_model_original causal_model_anomaly
           num_joint_samples early_stopping_percentage rest result run
  end.

(** Lines 373-388: the loop from [result = 0], [run = 0], and the final
    division. *)
Definition monte_carlo_mean (causal_model_original causal_model_anomaly : Mech)
    (num_joint_samples : nat) (early_stopping_percentage : float)
    (joint_parent_samples : list (list Val)) : M float :=
  state ← monte_carlo_loop causal_model_original causal_model_anomaly
            num_joint_samples early_stopping_percentage joint_parent_samples (Finite 0) 0;
  lift_outcome (py_div state.1 state.2).

(** Lines 366-371: the pooled parent rows, subsampled without replacement. *)
Definition evaluation_rows (parent_original_data parent_anomaly_data : list (list Val))
    (max_num_evaluation_samples : Z) : M (list (list Val)) :=
  let joint_parent_samples := np_vstack parent_original_data parent_anomaly_data in
  indices ← np_random_choice (length joint_parent_samples)
              (Z.min (Z.of_nat (length joint_parent_samples))
                     max_num_evaluation_samples);
  take_rows joint_parent_samples indices.

Definition _estimate_distribution_change_score
    (parent_original_data parent_anomaly_data target_anomaly_data : ndarray)
    (causal_model_original : Mech) (max_num_evaluation_samples : Z)
    (num_joint_samples : nat) (early_stopping_percentage : float) : M float :=
  let parent_original_data := shape_into_2d parent_original_data in
  let parent_anomaly_data := shape_into_2d parent_anomaly_data in
  let target_anomaly_data := shape_into_2d target_anomaly_data in
  _ ← emit (EvMechClone causal_model_original);
  let causal_model_anomaly := mech_clone causal_model_original in
  causal_model_anomaly ←
    call (EvMechFit causal_model_anomaly parent_anomaly_data target_anomaly_data)
         (mech_fit causal_model_anomaly parent_anomaly_data target_anomaly_data);
  joint_parent_samples ← evaluation_rows parent_original_data parent_anomaly_data
                           max_num_evaluation_samples;
  monte_carlo_mean causal_model_original causal_model_anomaly num_joint_samples
    early_stopping_percentage joint_parent_samples.

(** Lines 297-314: the score of one node, the value stored in
    [results[n]]. *)
Definition score_of_node (causal_model : ProbabilisticCausalModel)
    (original_data anomaly_data : nat) (mechanism_changed_for_node : gmap node bool)
    (max_num_evaluation_samples : Z) (num_joint_samples : nat)
    (early_stopping_percentage : float) (n : node) : M float :=
  changed ← lift_option KeyError (mechanism_changed_for_node !! n);
  if changed : bool then
    if is_root_node (graph causal_model) n then
      a ← column original_data n;
      b ← column anomaly_data n;
      call (EvDifference a b) (difference_estimation_func a b)
    else
      let parent_nodes := get_ordered_predecessors (graph causal_model) n in
      parent_original_data ← columns original_data parent_nodes;
      parent_anomaly_data ← columns anomaly_data parent_nodes;
      target_anomaly_data ← column anomaly_data n;
      mechanism ← causal_mechanism causal_model n;
      _estimate_distribution_change_score parent_original_data parent_anomaly_data
        target_anomaly_data mechanism max_num_evaluation_samples
        num_joint_samples early_stopping_percentage
  else mret (Finite 0).

Definition estimate_distribution_change_scores
    (causal_model : ProbabilisticCausalModel) (original_data anomaly_data : nat)
    (max_num_evaluation_samples : Z) (num_joint_samples : nat)
    (early_stopping_percentage : float)
    (mechanism_change_test_significance_level : Q)
    (mechanism_change_test_fdr_control_method : option string)
    : M (gmap node float) :=
  _ ← validate_causal_dag (graph causal_model);
  mechanism_changed_for_node ←
    _check_significant_mechanism_change (graph causal_model) original_data
      anomaly_data mechanism_change_test_significance_level
      mechanism_change_test_fdr_control_method;
  for_each (nodes (graph causal_model)) ∅ (λ n results,
    score ← score_of_node causal_model original_data anomaly_data
              mechanism_changed_for_node max_num_evaluation_samples
              num_joint_samples early_stopping_percentage n;
    mret (<[n := score]> results)).

(** ** Specification vocabulary *)

(** [rows] is a subsample of size [m] of [arr], drawn without replacement:
    the rows of [arr] at [m] pairwise distinct positions. *)
Definition subsample_of (arr : ndarray) (m : nat) (rows : list (list Val)) : Prop :=
  ∃ indices : list nat,
    length indices = m ∧ NoDup indices ∧ (∀ i, i ∈ indices → i < shape0 arr)
    ∧ Forall2 (λ i row, shape_into_2d arr !! i = Some row) indices rows.

(** The label vector of the mechanism-change test, with the old-derived rows
    marked [old_label] and the new-derived rows [new_label]. *)
Definition origin_labels (m : nat) (old_label new_label : string) : list string :=
  replicate m old_label ++ replicate m new_label.

(** The trace entries of the refitter for one node, given the change flags
    and the old, new and pooled tables. *)
Definition fits_of_node (flags : gmap node bool) (old_rows new_rows pooled : DataFrame)
    (n : node) : list Event :=
  match flags !! n with
  | Some true => [EvFit OldModel n old_rows; EvFit NewModel n new_rows]
  | Some false => [EvFit OldModel n pooled; EvFit NewModel n pooled]
  | None => []
  end.

(** The refitter as the specification describes it, node after node of
    [ns]: the mechanism of the node in the old model becomes what fitting
    the old model on the old rows returns, and the mechanism of the node in
    the new model what fitting the new model on the new rows returns, if the
    node is flagged as changed; both are fitted on the pooled rows if it is
    flagged as unchanged.  [g] and [g'] are the random states before and
    after. *)
Inductive refits (flags : gmap node bool) (old_rows new_rows pooled : DataFrame)
    : list node → ProbabilisticCausalModel * ProbabilisticCausalModel → Rng
      → ProbabilisticCausalModel * ProbabilisticCausalModel → Rng → Prop :=
  | refits_nil models g :
      refits flags old_rows new_rows pooled [] models g models g
  | refits_cons n ns models g changed mechanism_old g1 mechanism_new g2 models' g' :
      flags !! n = Some changed →
      fit_causal_model_of_target models.1 n
        (if changed : bool then old_rows else pooled) g = (Ok mechanism_old, g1) →
      fit_causal_model_of_target models.2 n
        (if changed : bool then new_rows else pooled) g1 = (Ok mechanism_new, g2) →
      refits flags old_rows new_rows pooled ns
        (with_mechanism models.1 n mechanism_old,
         with_mechanism models.2 n mechanism_new) g2 models' g' →
      refits flags old_rows new_rows pooled (n :: ns) models g models' g'.

(** The worlds a loop over [xs] passes through: the iteration of the first
    element takes the world the loop starts in to the world the iteration of
    the second element starts in, and so on to the world the loop ends in;
    [step x wa wb] describes the iteration of [x] from [wa] to [wb]. *)
Inductive chain {A} (step : A → World → World → Prop)
    : list A → World → World → Prop :=
  | chain_nil w : chain step [] w w
  | chain_cons x xs w w1 w' :
      step x w w1 → chain step xs w1 w' → chain step (x :: xs) w w'.

(** [graph.nodes[n][CAUSAL_MECHANISM]], if set. *)
Definition mechanism_of (g : DirectedGraph) (n : node) : option Mech :=
  attrs g !! n ≫= CAUSAL_MECHANISM.

(** The mechanism the hybrid model of [subset] has to use for player [i]:
    the new one where the subset holds a 1, the old one elsewhere. *)
Definition mechanism_of_player (old_causal_models new_causal_models : list Mech)
    (subset : list Z) (i : nat) : option Mech :=
  s ← subset !! i;
  if bool_decide (s = 1%Z) then new_causal_models !! i else old_causal_models !! i.

(** The trace entries only the Monte-Carlo evaluation writes: cloning,
    refitting and sampling a mechanism. *)
Definition is_monte_carlo (ev : Event) : Prop :=
  match ev with
  | EvMechClone _ | EvMechFit _ _ _ | EvMechDraw _ _ => True
  | _ => False
  end.

(** The trace entries of sampling and of the Shapley evaluation. *)
Definition is_sampling (ev : Event) : Prop :=
  match ev with
  | EvDrawSamples _ _ | EvShapley _ | EvDifference _ _ | EvMechDraw _ _ => True
  | _ => False
  end.

(** A nonempty walk along the edges of the graph, between nodes of the
    graph. *)
Inductive path (g : DirectedGraph) : node → node → Prop :=
  | path_edge a b :
      a ∈ nodes g → b ∈ nodes g → (a, b) ∈ edges g → path g a b
  | path_step a b c :
      path g a b → c ∈ nodes g → (b, c) ∈ edges g → path g a c.

(** The graph contains a cycle: some node reaches itself. *)
Definition has_cycle (g : DirectedGraph) : Prop := ∃ n, path g n n.

Definition is_fit (ev : Event) : Prop :=
  match ev with EvFit _ _ _ => True | _ => False end.

#[global] Instance is_fit_dec ev : Decision (is_fit ev).
Proof. destruct ev; simpl; apply _. Defined.

(** * Properties *)

(** ** The monad *)

Lemma bind_Ok {A B} (m : M A) (f : A → M B) w a w' :
  m w = (Ok a, w') → (m ≫= f) w = f a w'.
Proof. unfold mbind, M_bind. by intros ->. Qed.

Lemma bind_Raise {A B} (m : M A) (f : A → M B) w e w' :
  m w = (Raise e, w') → (m ≫= f) w = (Raise e, w').
Proof. unfold mbind, M_bind. by intros ->. Qed.

Lemma bind_Ok_inv {A B} (m : M A) (f : A → M B) w b w'' :
  (m ≫= f) w = (Ok b, w'') →
  ∃ a w', m w = (Ok a, w') ∧ f a w' = (Ok b, w'').
Proof.
  unfold mbind, M_bind. destruct (m w) as [[a|e] w'] eqn:E; [eauto|done].
Qed.

Lemma mret_Ok_inv {A} (a b : A) w w' :
  mret (M:=M) a w = (Ok b, w') → a = b ∧ w = w'.
Proof. unfold mret, M_ret. by intros [= -> ->]. Qed.

Lemma lift_option_Ok_inv {A} e (o : option A) a w w' :
  lift_option e o w = (Ok a, w') → o = Some a ∧ w = w'.
Proof. destruct o; simpl; unfold mret, M_ret, raise; by intros [= -> ->]. Qed.

Lemma lift_option_Some {A} e (a : A) w : lift_option e (Some a) w = (Ok a, w).
Proof. done. Qed.

Lemma call_inv {A} ev (f : ext Rng A) w r w' :
  call ev f w = (r, w') →
  log w' = log w ++ [ev] ∧ frames w' = frames w ∧ f (rng w) = (r, rng w').
Proof.
  unfold call, emit, run_ext, mbind, M_bind. simpl.
  destruct (f (rng w)) as [r0 g]. intros [= <- <-]. done.
Qed.


(** ** Dictionaries *)

Lemma py_dict_app {V} (l1 l2 : list (node * V)) :
  py_dict (l1 ++ l2) = foldl (λ d kv, <[kv.1 := kv.2]> d) (py_dict l1) l2.
Proof. unfold py_dict. by rewrite foldl_app. Qed.

Lemma py_dict_snoc {V} (l : list (node * V)) k v :
  py_dict (l ++ [(k, v)]) = <[k := v]> (py_dict l).
Proof. by rewrite py_dict_app. Qed.

Lemma foldl_insert_lookup_ne {V} (l : list (node * V)) (d : gmap node V) k :
  k ∉ l.*1 → foldl (λ d kv, <[kv.1 := kv.2]> d) d l !! k = d !! k.
Proof.
  revert d. induction l as [|[k' v'] l IH]; intros d; [done|].
  simpl. rewrite not_elem_of_cons. intros [Hne Hl].
  rewrite IH by done. by rewrite lookup_insert_ne.
Qed.

Lemma foldl_insert_zip_lookup {V} (ks : list node) (vs : list V)
    (d : gmap node V) i k v :
  NoDup ks → ks !! i = Some k → vs !! i = Some v →
  foldl (λ d kv, <[kv.1 := kv.2]> d) d (zip ks vs) !! k = Some v.
Proof.
  revert vs d i. induction ks as [|k0 ks IH]; intros vs d i Hnd Hk Hv; [done|].
  apply NoDup_cons in Hnd as [Hk0 Hnd].
  destruct vs as [|v0 vs]; [done|]. simpl.
  destruct i as [|i]; simpl in *.
  - injection Hk as <-. injection Hv as <-.
    rewrite foldl_insert_lookup_ne; [by rewrite lookup_insert_eq|].
    intros ([a b] & -> & Hin%elem_of_zip_l)%list_elem_of_fmap. done.
  - eapply IH; eauto.
Qed.

Lemma py_dict_zip_lookup {V} (ks : list node) (vs : list V) i k v :
  NoDup ks → ks !! i = Some k → vs !! i = Some v →
  py_dict (zip ks vs) !! k = Some v.
Proof. apply foldl_insert_zip_lookup. Qed.

(** ** The Shapley value function on the empty coalition *)

(** C6. For every graph, every pair of mechanism lists and every length of
    the subset vector, the Shapley value function evaluated at the all-zero
    subset returns exactly 0 and leaves the world as it found it: nothing is
    added to the trace (no graph copy, no sampling, no call of the
    difference function) and the random state is untouched. *)
Theorem attribution_set_function_all_zero
    (causal_model_old : ProbabilisticCausalModel)
    (old_causal_models new_causal_models : list Mech)
    (target_samples_old : ndarray) (target_node : node) (num_samples n : nat)
    (w : World) :
  attribution_set_function causal_model_old old_causal_models new_causal_models
    target_samples_old target_node num_samples (replicate n 0%Z) w
  = (Ok (Finite 0), w).
Proof.
  unfold attribution_set_function.
  assert (forallb (λ s : Z, bool_decide (s = 0%Z)) (replicate n 0%Z) = true) as ->.
  { induction n as [|n IH]; [done|]. simpl. by rewrite IH. }
  done.
Qed.

(** ** The multiple-testing corrector *)

Lemma significant_p_values_None all_p_values α w :
  significant_p_values all_p_values α None w
  = (Ok ((λ p, Qle_bool p α) <$> all_p_values), w).
Proof. done. Qed.

(** C7. With no FDR control method, the corrector returns, for any sequence
    of p-values, one decision per p-value in the same order, the i-th being
    true exactly when [p[i] <= alpha]; the empty sequence gives the empty
    result; and the dictionary [_check_significant_mechanism_change] builds
    from the p-values of the graph's nodes maps the i-th node to the
    decision of the i-th p-value. *)
Theorem corrector_without_fdr_method (g : DirectedGraph) (old_data new_data : nat)
    (α : Q) (all_p_values : list Q) (w w1 : World) :
  mapM (p_value_of_node g old_data new_data) (nodes g) w = (Ok all_p_values, w1) →
  NoDup (nodes g) →
  (∀ (ps : list Q) (w' : World),
     ∃ successes,
       significant_p_values ps α None w' = (Ok successes, w')
       ∧ length successes = length ps
       ∧ (∀ i p, ps !! i = Some p →
            ∃ d, successes !! i = Some d ∧ (d = true ↔ (p <= α)%Q))
       ∧ (ps = [] → successes = []))
  ∧ ∃ flags,
      _check_significant_mechanism_change g old_data new_data α None w
      = (Ok flags, w1)
      ∧ (∀ i n p, nodes g !! i = Some n → all_p_values !! i = Some p →
           ∃ d, flags !! n = Some d ∧ (d = true ↔ (p <= α)%Q))
      ∧ (nodes g = [] → flags = ∅).
Proof.
  intros Hps Hnd. split.
  - intros ps w'. exists ((λ p, Qle_bool p α) <$> ps).
    split_and!; [done|by rewrite length_fmap| |by intros ->].
    intros i p Hi. exists (Qle_bool p α).
    rewrite list_lookup_fmap, Hi. split; [done|apply Qle_bool_iff].
  - exists (py_dict (zip (nodes g) ((λ p, Qle_bool p α) <$> all_p_values))).
    split_and!.
    + unfold _check_significant_mechanism_change.
      erewrite bind_Ok by exact Hps.
      by rewrite (bind_Ok _ _ _ _ _ (significant_p_values_None _ _ _)).
    + intros i n p Hn Hp. exists (Qle_bool p α). split; [|apply Qle_bool_iff].
      eapply py_dict_zip_lookup; [done..|].
      by rewrite list_lookup_fmap, Hp.
    + by intros ->.
Qed.

(** ** The Monte-Carlo loop of the anomaly-score estimator *)

Section MonteCarlo.
Variables causal_model_original causal_model_anomaly : Mech.
Variable num_joint_samples : nat.
Variable early_stopping_percentage : float.

#[local] Abbreviation contribution :=
  (row_contribution causal_model_original causal_model_anomaly num_joint_samples).
#[local] Abbreviation loop :=
  (monte_carlo_loop causal_model_original causal_model_anomaly num_joint_samples
     early_stopping_percentage).

Lemma running_total_cons start c cs :
  running_total start (c :: cs) = running_total (fadd start c) cs.
Proof. done. Qed.

Lemma monte_carlo_loop_cons r rest result run :
  loop (r :: rest) result run
  = (d ← contribution r;
     if early_stop result (fadd result d) early_stopping_percentage
     then mret (fadd result d, S run)
     else loop rest (fadd result d) (S run)).
Proof. done. Qed.

(** What a normal exit of the loop tells: the rows processed are a prefix of
    the rows given, the loop-carried state is the running total and count of
    their contributions, and the loop went past a row, when more rows were
    left, exactly when the early-stopping test failed there. *)
Lemma monte_carlo_loop_inv rows result run w result' run' w' :
  loop rows result run w = (Ok (result', run'), w') →
  ∃ cs : list float,
    length cs ≤ length rows
    ∧ (rows ≠ [] → 1 ≤ length cs)
    ∧ mapM contribution (take (length cs) rows) w = (Ok cs, w')
    ∧ result' = running_total result cs
    ∧ run' = run + length cs
    ∧ ∀ j, j < length cs → S j < length rows →
        (S j = length cs
         ↔ relative_change_within (running_total result (take j cs))
             (running_total result (take (S j) cs)) early_stopping_percentage).
Proof.
  revert result run w. induction rows as [|r rest IH]; intros result run w; simpl.
  - intros [[= <- <-] <-]%mret_Ok_inv. exists []. simpl.
    split_and!; try done; try lia.
  - intros (d & w1 & Hd & Hrest)%bind_Ok_inv.
    destruct (early_stop result (fadd result d) early_stopping_percentage) eqn:Hstop.
    + apply mret_Ok_inv in Hrest as [[= <- <-] <-].
      exists [d]. simpl. split_and!; try done; try lia.
      * rewrite ?take_0. by rewrite (bind_Ok _ _ _ _ _ Hd).
      * intros j Hj _. assert (j = 0) as -> by lia. simpl.
        split; [|done]. intros _. by apply early_stop_spec.
    + apply IH in Hrest as (cs & Hlen & Hne & Hcs & -> & -> & Hstep).
      exists (d :: cs). simpl. split_and!; try done; try lia.
      * rewrite (bind_Ok _ _ _ _ _ Hd). by rewrite (bind_Ok _ _ _ _ _ Hcs).
      * intros [|j] Hj Hj'; simpl.
        -- split.
           ++ intros Hk. destruct rest; [simpl in *; lia|].
              assert (1 ≤ length cs) by (by apply Hne). lia.
           ++ intros Hc%early_stop_spec. congruence.
        -- rewrite <- Hstep by lia. lia.
Qed.

(** C2. Whenever the Monte-Carlo computation returns a score, the rows it
    processed are the first [k] pooled rows for some [k >= 1]; after the
    [j+1]-th row, with rows still left, the loop stops if and only if the
    previous running total is nonzero and
    [1 - new total / previous total <= early_stopping_percentage]; and the
    score is the running sum of the contributions of those [k] rows divided
    by [k], the number of rows processed. *)
Theorem monte_carlo_mean_early_stopping rows w score w' :
  monte_carlo_mean causal_model_original causal_model_anomaly num_joint_samples
    early_stopping_percentage rows w = (Ok score, w') →
  ∃ cs : list float,
    1 ≤ length cs ≤ length rows
    ∧ mapM contribution (take (length cs) rows) w = (Ok cs, w')
    ∧ score = fdiv (running_total (Finite 0) cs) (float_of_nat (length cs))
    ∧ ∀ j, j < length cs → S j < length rows →
        (S j = length cs
         ↔ relative_change_within (running_total (Finite 0) (take j cs))
             (running_total (Finite 0) (take (S j) cs)) early_stopping_percentage).
Proof.
  unfold monte_carlo_mean.
  intros ([result run] & w1 & Hloop & Hdiv)%bind_Ok_inv.
  apply monte_carlo_loop_inv in Hloop as (cs & Hlen & _ & Hcs & -> & -> & Hstep).
  simpl in Hdiv. unfold lift_outcome in Hdiv.
  destruct (length cs) as [|k] eqn:Hk; [done|].
  injection Hdiv as <- <-. exists cs. rewrite Hk. split_and!; try done; lia.
Qed.

(** C3 (amended). With a nonnegative threshold, a finite, strictly positive
    contribution of the first row and a nonnegative contribution of the
    second (finite or infinite), the loop exits after exactly two rows
    whatever rows follow: the world is the one reached after the second row,
    and the score is [(first + second) / 2].  The first contribution has to
    be finite: after an infinite one the relative change is NaN and the test
    [NaN <= early_stopping_percentage] never holds. *)
Theorem monte_carlo_mean_stops_after_two_rows r1 r2 rest c1 c2 w0 w1 w2 :
  contribution r1 w0 = (Ok c1, w1) →
  contribution r2 w1 = (Ok c2, w2) →
  is_finite c1 →
  flt (Finite 0) c1 = true → fle (Finite 0) c2 = true →
  fle (Finite 0) early_stopping_percentage = true →
  loop (r1 :: r2 :: rest) (Finite 0) 0 w0
  = (Ok (fadd (fadd (Finite 0) c1) c2, 2), w2)
  ∧ ∃ score,
      monte_carlo_mean causal_model_original causal_model_anomaly
        num_joint_samples early_stopping_percentage (r1 :: r2 :: rest) w0
      = (Ok score, w2)
      ∧ same_float score (fdiv (fadd c1 c2) (Finite 2)).
Proof.
  intros H1 H2 Hfin Hc1 Hc2 Hthr.
  destruct c1 as [q1| | |]; try done. clear Hfin.
  simpl in Hc1. apply negb_true_iff in Hc1.
  assert (0 < q1)%Q as Hq1.
  { apply Qnot_le_lt. intros Hle%Qle_bool_iff. congruence. }
  assert (loop (r1 :: r2 :: rest) (Finite 0) 0 w0
          = (Ok (fadd (fadd (Finite 0) (Finite q1)) c2, 2), w2)) as Hloop.
  { rewrite monte_carlo_loop_cons, (bind_Ok _ _ _ _ _ H1).
    assert (early_stop (Finite 0) (fadd (Finite 0) (Finite q1))
              early_stopping_percentage = false) as -> by done.
    rewrite monte_carlo_loop_cons, (bind_Ok _ _ _ _ _ H2).
    assert (early_stop (fadd (Finite 0) (Finite q1))
              (fadd (fadd (Finite 0) (Finite q1)) c2) early_stopping_percentage
            = true) as ->; [|done].
    apply early_stop_growing; [lra|done..]. }
  split; [done|].
  eexists. split.
  - unfold monte_carlo_mean. by rewrite (bind_Ok _ _ _ _ _ Hloop).
  - destruct c2 as [q2| | |]; try done. simpl. field.
Qed.

End MonteCarlo.

Lemma monte_carlo_mean_nil causal_model_original causal_model_anomaly
    num_joint_samples early_stopping_percentage w :
  monte_carlo_mean causal_model_original causal_model_anomaly num_joint_samples
    early_stopping_percentage [] w
  = (Raise ZeroDivisionError, w).
Proof. done. Qed.

Lemma take_rows_length {A} (rows : list A) indices w rows' w' :
  take_rows rows indices w = (Ok rows', w') →
  length rows' = length indices ∧ w' = w.
Proof.
  unfold take_rows. intros [Hm ->]%lift_option_Ok_inv.
  by apply length_mapM in Hm.
Qed.

(** C10. The anomaly-score computation divides the accumulated result by
    the number of processed rows without a guard.  Under the contract of
    sampling without replacement: whenever it returns a score, the pooled
    parent array has at least one row and [max_num_evaluation_samples] is at
    least 1; and when the pooled array is empty (or the budget is 0) the
    loop body never runs -- the trace holds the clone and the fit only, no
    draw and no call of the difference function -- and the final division
    raises [ZeroDivisionError]. *)
Theorem score_undefined_without_rows
    (parent_original_data parent_anomaly_data target_anomaly_data : ndarray)
    (causal_model_original : Mech) (max_num_evaluation_samples : Z)
    (num_joint_samples : nat) (early_stopping_percentage : float) (w : World) :
  choice_contract →
  let pooled := np_vstack (shape_into_2d parent_original_data)
                  (shape_into_2d parent_anomaly_data) in
  let fit_event := EvMechFit (mech_clone causal_model_original)
                     (shape_into_2d parent_anomaly_data)
                     (shape_into_2d target_anomaly_data) in
  (∀ score w',
     _estimate_distribution_change_score parent_original_data parent_anomaly_data
       target_anomaly_data causal_model_original max_num_evaluation_samples
       num_joint_samples early_stopping_percentage w = (Ok score, w') →
     1 ≤ length pooled ∧ (1 <= max_num_evaluation_samples)%Z)
  ∧ (∀ causal_model_anomaly g,
       pooled = [] ∨ max_num_evaluation_samples = 0%Z →
       (0 <= max_num_evaluation_samples)%Z →
       mech_fit (mech_clone causal_model_original)
         (shape_into_2d parent_anomaly_data) (shape_into_2d target_anomaly_data)
         (rng w) = (Ok causal_model_anomaly, g) →
       ∃ w',
         _estimate_distribution_change_score parent_original_data
           parent_anomaly_data target_anomaly_data causal_model_original
           max_num_evaluation_samples num_joint_samples
           early_stopping_percentage w = (Raise ZeroDivisionError, w')
         ∧ log w' = log w ++ [EvMechClone causal_model_original; fit_event]).
Proof.
  intros Hchoice pooled fit_event. split.
  - intros score w'. unfold _estimate_distribution_change_score.
    intros (_ & wa & _ & (anomaly & wb & _ & (rows & wc & Hrows & Hmean)%bind_Ok_inv
      )%bind_Ok_inv)%bind_Ok_inv.
    unfold evaluation_rows in Hrows. fold pooled in Hrows.
    apply bind_Ok_inv in Hrows as (idx & wd & Hidx & Htake).
    apply take_rows_length in Htake as [Hlen ->].
    unfold np_random_choice in Hidx.
    destruct (Z.ltb_spec (Z.min (Z.of_nat (length pooled)) max_num_evaluation_samples) 0)
      as [Hneg|Hpos]; [done|].
    unfold run_ext in Hidx.
    pose proof (Hchoice (length pooled)
      (Z.to_nat (Z.min (Z.of_nat (length pooled)) max_num_evaluation_samples))
      (rng wb)) as Hc.
    destruct (choice _ _ _) as [[idx'|e] g'] eqn:Hch; [|done].
    injection Hidx as -> <-. destruct Hc as (Hidxlen & _ & _).
    destruct rows as [|r rows].
    { by rewrite monte_carlo_mean_nil in Hmean. }
    simpl in Hlen. lia.
  - intros anomaly g Hempty Hmax Hfit.
    unfold _estimate_distribution_change_score.
    set (w1 := mkWorld (rng w) (log w ++ [EvMechClone causal_model_original]) (frames w)).
    set (w2 := mkWorld g (log w1 ++ [fit_event]) (frames w1)).
    rewrite (bind_Ok _ _ w tt w1) by done.
    rewrite (bind_Ok _ _ w1 anomaly w2).
    2:{ unfold call, emit, run_ext, mbind, M_bind. simpl. by rewrite Hfit. }
    assert (∃ g', evaluation_rows (shape_into_2d parent_original_data)
              (shape_into_2d parent_anomaly_data) max_num_evaluation_samples w2
            = (Ok [], mkWorld g' (log w2) (frames w2))) as [g' Hrows].
    { unfold evaluation_rows. fold pooled.
      assert (Z.min (Z.of_nat (length pooled)) max_num_evaluation_samples = 0%Z) as ->.
      { destruct Hempty as [-> | ->]; simpl; lia. }
      unfold np_random_choice. simpl.
      pose proof (Hchoice (length pooled) 0 (rng w2)) as Hc.
      unfold mbind, M_bind, run_ext.
      destruct (choice _ _ _) as [[idx|e] g'] eqn:Hch; [|lia].
      destruct Hc as (Hlen & _ & _). destruct idx; [|done].
      by exists g'. }
    rewrite (bind_Ok _ _ _ _ _ Hrows), monte_carlo_mean_nil.
    eexists. split; [done|]. simpl. by rewrite <- app_assoc.
Qed.

(** ** The mechanism-change test *)

(** The label array: [m] times ["1.0"], then [m] times ["-1.0"]. *)
Lemma data_set_indices_eq m :
  astype_str (assign_from m (-1) (np_ones (m * 2)))
  = replicate m "1.0"%string ++ replicate m "-1.0"%string.
Proof.
  unfold astype_str, assign_from, np_ones.
  rewrite take_replicate, length_replicate, fmap_app, !fmap_replicate.
  by replace (m `min` (m * 2)) with m by lia; replace (m * 2 - m) with m by lia.
Qed.

Lemma np_random_choice_ok a size w :
  choice_contract → size ≤ a →
  ∃ idx g,
    np_random_choice a (Z.of_nat size) w
    = (Ok idx, mkWorld g (log w) (frames w))
    ∧ length idx = size ∧ NoDup idx ∧ (∀ i, i ∈ idx → i < a).
Proof.
  intros Hc Hle. unfold np_random_choice.
  destruct (Z.ltb_spec (Z.of_nat size) 0) as [?|_]; [lia|].
  rewrite Nat2Z.id. unfold run_ext. specialize (Hc a size (rng w)).
  destruct (choice a size (rng w)) as [[idx|e] g]; [|lia]. eauto.
Qed.

Lemma mapM_lookup_ok {A} (l : list A) (idx : list nat) :
  (∀ i, i ∈ idx → i < length l) →
  ∃ picked, mapM (λ i, l !! i) idx = Some picked
            ∧ Forall2 (λ i x, l !! i = Some x) idx picked.
Proof.
  intros Hidx.
  destruct (mapM (λ i, l !! i) idx) as [picked|] eqn:E.
  - exists picked. split; [done|]. by apply mapM_Some.
  - apply mapM_None_1, Exists_exists in E as (i & Hi & Hnone).
    apply lookup_ge_None in Hnone.
    apply Hidx in Hi. lia.
Qed.

(** Indexing an array by in-range positions succeeds, and commutes with the
    reshaping into two dimensions. *)
Lemma index_array_ok arr idx w :
  (∀ i, i ∈ idx → i < shape0 arr) →
  ∃ arr', index_array arr idx w = (Ok arr', w)
          ∧ Forall2 (λ i row, shape_into_2d arr !! i = Some row) idx
              (shape_into_2d arr').
Proof.
  intros Hidx. destruct arr as [xs|rows]; simpl in *.
  - destruct (mapM_lookup_ok xs idx Hidx) as (picked & Hp & Hall).
    exists (Arr1 picked). unfold take_rows, mbind, M_bind. rewrite Hp. simpl.
    split; [done|]. apply Forall2_fmap_r.
    eapply Forall2_impl; [done|]. intros i x Hx. simpl.
    by rewrite list_lookup_fmap, Hx.
  - destruct (mapM_lookup_ok rows idx Hidx) as (picked & Hp & Hall).
    exists (Arr2 picked). unfold take_rows, mbind, M_bind. rewrite Hp. done.
Qed.

Lemma call_run {A} ev (f : ext Rng A) w :
  call ev f w
  = ((f (rng w)).1, mkWorld (f (rng w)).2 (log w ++ [ev]) (frames w)).
Proof.
  unfold call, emit, run_ext, mbind, M_bind. simpl. by destruct (f (rng w)).
Qed.

(** C8 (amended). Under the contract of sampling without replacement, and
    with parent arrays (when given) at least as long as the target arrays,
    [mechanism_change_test] calls the independence test exactly once, on the
    rows of a subsample of size [min(|old|, |new|)] of the old targets
    stacked on the rows of such a subsample of the new targets, and on a
    label vector of length [2 * min(|old|, |new|)] whose first [min] entries
    are the string ["1.0"] and whose remaining entries are the string
    ["-1.0"]; its result is the result of that call. *)
Theorem mechanism_change_test_balanced_labels
    (target_original_data target_new_data : ndarray)
    (parents_original_data parents_new_data : option ndarray) (w : World) :
  choice_contract →
  match parents_original_data, parents_new_data with
  | None, None => True
  | Some po, Some pn =>
    shape0 target_original_data ≤ shape0 po ∧ shape0 target_new_data ≤ shape0 pn
  | _, _ => False
  end →
  let m := min (shape0 target_original_data) (shape0 target_new_data) in
  ∃ rows_old rows_new joint_parent_data g,
    subsample_of target_original_data m rows_old
    ∧ subsample_of target_new_data m rows_new
    ∧ length (origin_labels m "1.0" "-1.0") = 2 * m
    ∧ mechanism_change_test target_original_data target_new_data
        parents_original_data parents_new_data w
      = ((independence_test (rows_old ++ rows_new) (origin_labels m "1.0" "-1.0")
            joint_parent_data g).1,
         mkWorld
           (independence_test (rows_old ++ rows_new) (origin_labels m "1.0" "-1.0")
              joint_parent_data g).2
           (log w ++ [EvIndependenceTest (rows_old ++ rows_new)
                        (origin_labels m "1.0" "-1.0") joint_parent_data])
           (frames w)).
Proof.
  intros Hc Hparents m.
  destruct (np_random_choice_ok (shape0 target_original_data) m w Hc ltac:(lia))
    as (idx_o & g1 & H1 & Hlen1 & Hnd1 & Hlt1).
  destruct (np_random_choice_ok (shape0 target_new_data) m
              (mkWorld g1 (log w) (frames w)) Hc ltac:(lia))
    as (idx_n & g2 & H2 & Hlen2 & Hnd2 & Hlt2).
  simpl in H2.
  destruct (index_array_ok target_original_data idx_o
              (mkWorld g2 (log w) (frames w)) Hlt1) as (ao & Hao & Hfo).
  destruct (index_array_ok target_new_data idx_n
              (mkWorld g2 (log w) (frames w)) Hlt2) as (an & Han & Hfn).
  assert (length (origin_labels m "1.0" "-1.0") = 2 * m) as Hlabels.
  { unfold origin_labels. rewrite length_app, !length_replicate. lia. }
  assert (subsample_of target_original_data m (shape_into_2d ao)) as Hso.
  { by exists idx_o. }
  assert (subsample_of target_new_data m (shape_into_2d an)) as Hsn.
  { by exists idx_n. }
  unfold mechanism_change_test. fold m. cbv zeta.
  rewrite data_set_indices_eq. fold (origin_labels m "1.0" "-1.0").
  destruct parents_original_data as [po|], parents_new_data as [pn|]; try done.
  - destruct Hparents as [Hpo Hpn].
    destruct (index_array_ok po idx_o (mkWorld g2 (log w) (frames w)))
      as (apo & Hapo & _); [intros i Hi%Hlt1; lia|].
    destruct (index_array_ok pn idx_n (mkWorld g2 (log w) (frames w)))
      as (apn & Hapn & _); [intros i Hi%Hlt2; lia|].
    exists (shape_into_2d ao), (shape_into_2d an),
      (Some (np_vstack (shape_into_2d apo) (shape_into_2d apn))), g2.
    split_and!; try done.
    rewrite (bind_Ok _ _ _ _ _ H1), (bind_Ok _ _ _ _ _ H2),
      (bind_Ok _ _ _ _ _ Hao), (bind_Ok _ _ _ _ _ Han),
      (bind_Ok _ _ _ _ _ Hapo), (bind_Ok _ _ _ _ _ Hapn).
    by rewrite call_run.
  - exists (shape_into_2d ao), (shape_into_2d an), None, g2.
    split_and!; try done.
    rewrite (bind_Ok _ _ _ _ _ H1), (bind_Ok _ _ _ _ _ H2),
      (bind_Ok _ _ _ _ _ Hao), (bind_Ok _ _ _ _ _ Han).
    by rewrite call_run.
Qed.

(** ** Invariants of runs *)

(** [steps R m]: every run of [m], whatever its outcome, takes a world to an
    [R]-related world. *)
Definition steps (R : relation World) {A} (m : M A) : Prop :=
  ∀ w r w', m w = (r, w') → R w w'.

Section Steps.
Context (R : relation World) `{!PreOrder R}.

Lemma steps_ret {A} (a : A) : steps R (mret a).
Proof. intros w r w' [= <- <-]. done. Qed.

Lemma steps_raise {A} e : steps R (raise (A:=A) e).
Proof. intros w r w' [= <- <-]. done. Qed.

Lemma steps_lift_option {A} e (o : option A) : steps R (lift_option e o).
Proof. destruct o; [apply steps_ret|apply steps_raise]. Qed.

Lemma steps_lift_outcome {A} (o : outcome A) : steps R (lift_outcome o).
Proof. intros w r w' [= <- <-]. done. Qed.

Lemma steps_read_frame data : steps R (read_frame data).
Proof.
  intros w r w'. unfold read_frame. destruct (frames w !! data); by intros [= <- <-].
Qed.

Lemma steps_bind {A B} (m : M A) (f : A → M B) :
  steps R m → (∀ a, steps R (f a)) → steps R (m ≫= f).
Proof.
  intros Hm Hf w r w'. unfold mbind, M_bind.
  destruct (m w) as [[a|e] w1] eqn:E.
  - intros Hfa. etrans; [by eapply Hm|by eapply Hf].
  - intros [= <- <-]. by eapply Hm.
Qed.

Lemma steps_mapM {A B} (f : A → M B) xs :
  (∀ x, steps R (f x)) → steps R (mapM f xs).
Proof.
  intros Hf. induction xs as [|x xs IH]; simpl; [apply steps_ret|].
  apply steps_bind; [done|]. intros y.
  apply steps_bind; [done|]. intros ys. apply steps_ret.
Qed.

Lemma steps_for_each {A S} (xs : list A) (s : S) body :
  (∀ x s, steps R (body x s)) → steps R (for_each xs s body).
Proof.
  intros Hb. revert s. induction xs as [|x xs IH]; intros s; simpl;
    [apply steps_ret|].
  apply steps_bind; [done|]. intros s'. apply IH.
Qed.

End Steps.

(** The trace only grows, and by entries satisfying [P]. *)
Definition logs (P : Event → Prop) : relation World :=
  λ w w', ∃ evs, log w' = log w ++ evs ∧ Forall P evs.

#[local] Instance logs_preorder P : PreOrder (logs P).
Proof.
  split.
  - intros w. exists []. by rewrite app_nil_r.
  - intros w1 w2 w3 (e1 & H1 & F1) (e2 & H2 & F2). exists (e1 ++ e2).
    rewrite H2, H1, app_assoc. split; [done|]. by apply Forall_app.
Qed.

(** The store of tables is left as it is. *)
Definition same_frames : relation World := λ w w', frames w' = frames w.

#[local] Instance same_frames_preorder : PreOrder same_frames.
Proof. split; [by intros w|]. intros w1 w2 w3 H1 H2. unfold same_frames in *. congruence. Qed.

Lemma logs_emit P ev : P ev → steps (logs P) (emit ev).
Proof. intros HP w r w' [= <- <-]. exists [ev]. split; [done|]. by constructor. Qed.

Lemma logs_run_ext P {A} (f : ext Rng A) : steps (logs P) (run_ext f).
Proof.
  intros w r w'. unfold run_ext. destruct (f (rng w)). intros [= <- <-].
  exists []. simpl. by rewrite app_nil_r.
Qed.

Lemma logs_call P {A} ev (f : ext Rng A) : P ev → steps (logs P) (call ev f).
Proof.
  intros HP. apply steps_bind; [apply _|by apply logs_emit|].
  intros _. apply logs_run_ext.
Qed.

Lemma logs_alloc_frame P df : steps (logs P) (alloc_frame df).
Proof. intros w r w' [= <- <-]. exists []. simpl. by rewrite app_nil_r. Qed.

Lemma same_frames_call {A} ev (f : ext Rng A) : steps same_frames (call ev f).
Proof. intros w r w'. rewrite call_run. by intros [= <- <-]. Qed.

Lemma same_frames_emit ev : steps same_frames (emit ev).
Proof. by intros w r w' [= <- <-]. Qed.

Lemma same_frames_run_ext {A} (f : ext Rng A) : steps same_frames (run_ext f).
Proof. intros w r w'. unfold run_ext. destruct (f (rng w)). by intros [= <- <-]. Qed.

Ltac steps_step :=
  first
    [ apply steps_ret; apply _
    | apply steps_raise; apply _
    | apply steps_lift_option; apply _
    | apply steps_lift_outcome; apply _
    | apply steps_read_frame; apply _
    | apply same_frames_call
    | apply same_frames_emit
    | apply same_frames_run_ext
    | apply logs_call; first [exact I | solve [simpl; auto] | solve [hnf; simpl; auto]]
    | apply logs_emit; first [exact I | solve [simpl; auto] | solve [hnf; simpl; auto]]
    | apply logs_run_ext
    | apply logs_alloc_frame
    | apply steps_bind; [apply _| |intros ?]
    | apply steps_mapM; [apply _|intros ?]
    | apply steps_for_each; [apply _|intros ? ?]
    | match goal with |- steps _ (if ?b then _ else _) => destruct b end
    | match goal with |- steps _ (match ?o with _ => _ end) => destruct o end ].
Ltac steps_tac := repeat steps_step.

(** ** The mechanism refitter *)

Lemma check_logs_no_fit g old_data new_data α fdr :
  steps (logs (λ ev, ¬ is_fit ev))
    (_check_significant_mechanism_change g old_data new_data α fdr).
Proof.
  unfold _check_significant_mechanism_change, p_value_of_node,
    significant_p_values, column, columns, column_of.
  steps_tac.
Qed.

Lemma check_same_frames g old_data new_data α fdr :
  steps same_frames (_check_significant_mechanism_change g old_data new_data α fdr).
Proof.
  unfold _check_significant_mechanism_change, p_value_of_node,
    significant_p_values, column, columns, column_of.
  steps_tac.
Qed.

Lemma read_frame_inv data w df w' :
  read_frame data w = (Ok df, w') → frames w !! data = Some df ∧ w' = w.
Proof.
  unfold read_frame. destruct (frames w !! data); [|done]. by intros [= -> ->].
Qed.

Lemma fit_target_inv which models n data w models' w' :
  fit_target which models n data w = (Ok models', w') →
  ∃ df mechanism,
    frames w !! data = Some df
    ∧ fit_causal_model_of_target (model_of which models) n df (rng w)
      = (Ok mechanism, rng w')
    ∧ models' = with_model which (with_mechanism (model_of which models) n mechanism)
                  models
    ∧ log w' = log w ++ [EvFit which n df] ∧ frames w' = frames w.
Proof.
  unfold fit_target.
  intros (df & w1 & [Hdf ->]%read_frame_inv
          & (m & w2 & Hcall & [<- <-]%mret_Ok_inv)%bind_Ok_inv)%bind_Ok_inv.
  apply call_inv in Hcall as (? & ? & ?). eauto 10.
Qed.

Lemma frame_append_inv old_data new_data w joint w' :
  frame_append old_data new_data w = (Ok joint, w') →
  ∃ old_rows new_rows,
    frames w !! old_data = Some old_rows ∧ frames w !! new_data = Some new_rows
    ∧ joint = length (frames w)
    ∧ frames w' = frames w ++ [old_rows ++ new_rows] ∧ log w' = log w
    ∧ rng w' = rng w.
Proof.
  unfold frame_append.
  intros (a & w1 & [Ha ->]%read_frame_inv
          & (b & w2 & [Hb ->]%read_frame_inv & Halloc)%bind_Ok_inv)%bind_Ok_inv.
  unfold alloc_frame in Halloc. injection Halloc as <- <-. exists a, b. done.
Qed.

(** The two fits of one node (lines 220-225): the old model on [d_old], then
    the new model on [d_new]. *)
Lemma fit_both_inv models n (old_data new_data : nat) w models' w' :
  (models1 ← fit_target OldModel models n old_data;
   fit_target NewModel models1 n new_data) w = (Ok models', w') →
  ∃ d_old d_new mechanism_old g1 mechanism_new,
    frames w !! old_data = Some d_old
    ∧ frames w !! new_data = Some d_new
    ∧ fit_causal_model_of_target models.1 n d_old (rng w) = (Ok mechanism_old, g1)
    ∧ fit_causal_model_of_target models.2 n d_new g1 = (Ok mechanism_new, rng w')
    ∧ models' = (with_mechanism models.1 n mechanism_old,
                 with_mechanism models.2 n mechanism_new)
    ∧ log w' = log w ++ [EvFit OldModel n d_old; EvFit NewModel n d_new]
    ∧ frames w' = frames w.
Proof.
  intros (models1 & w1 & (d1 & mo & Hd1 & Hfit1 & -> & Hl1 & Hf1)%fit_target_inv
          & (d2 & mn & Hd2 & Hfit2 & -> & Hl2 & Hf2)%fit_target_inv)%bind_Ok_inv.
  rewrite Hf1 in Hd2. simpl in *.
  exists d1, d2, mo, (rng w1), mn. split_and!; try done.
  - by rewrite Hl2, Hl1, <- app_assoc.
  - congruence.
Qed.

(** The loop of the refitter (lines 219-225), run to its end. *)
Lemma refit_loop_inv (flags : gmap node bool) (old_data new_data joint_data : nat)
    old_rows new_rows pooled ns models w models' w' :
  frames w !! old_data = Some old_rows →
  frames w !! new_data = Some new_rows →
  frames w !! joint_data = Some pooled →
  for_each ns models
    (λ n models,
       changed ← lift_option KeyError (flags !! n);
       if changed : bool then
         models ← fit_target OldModel models n old_data;
         fit_target NewModel models n new_data
       else
         models ← fit_target OldModel models n joint_data;
         fit_target NewModel models n joint_data) w = (Ok models', w') →
  log w' = log w ++ (ns ≫= fits_of_node flags old_rows new_rows pooled)
  ∧ frames w' = frames w
  ∧ (∀ n, n ∈ ns → is_Some (flags !! n))
  ∧ nodes (graph models'.1) = nodes (graph models.1)
  ∧ edges (graph models'.1) = edges (graph models.1)
  ∧ refits flags old_rows new_rows pooled ns models (rng w) models' (rng w').
Proof.
  intros Ho Hn Hj. revert models w Ho Hn Hj.
  induction ns as [|n ns IH]; intros models w Ho Hn Hj; simpl.
  - intros [<- <-]%mret_Ok_inv. rewrite app_nil_r. split_and!; try done.
    + intros n Hin. by apply elem_of_nil in Hin.
    + constructor.
  - intros (models1 & w1 & Hbody & Hrest)%bind_Ok_inv.
    apply bind_Ok_inv in Hbody as (changed & w0 & [Hflag <-]%lift_option_Ok_inv & Hbody).
    assert (∃ mechanism_old g1 mechanism_new,
              fit_causal_model_of_target models.1 n
                (if changed then old_rows else pooled) (rng w)
              = (Ok mechanism_old, g1)
              ∧ fit_causal_model_of_target models.2 n
                  (if changed then new_rows else pooled) g1
                = (Ok mechanism_new, rng w1)
              ∧ models1 = (with_mechanism models.1 n mechanism_old,
                           with_mechanism models.2 n mechanism_new)
              ∧ log w1 = log w ++ fits_of_node flags old_rows new_rows pooled n
              ∧ frames w1 = frames w)
      as (mo & g1 & mn & Hfit1 & Hfit2 & -> & Hlog & Hfr).
    { unfold fits_of_node. rewrite Hflag.
      destruct changed;
        apply fit_both_inv in Hbody
          as (d1 & d2 & mo & g1 & mn & Hd1 & Hd2 & Hfit1 & Hfit2 & -> & Hlog & Hfr);
        simplify_eq; exists mo, g1, mn; done. }
    rewrite <- Hfr in Ho, Hn, Hj.
    destruct (IH _ _ Ho Hn Hj Hrest) as (Hlog' & Hfr' & Hall & Hnodes' & Hedges' & Hrefits).
    simpl in Hnodes', Hedges'.
    split_and!.
    + by rewrite Hlog', Hlog, <- app_assoc.
    + congruence.
    + intros n' [->|Hin]%elem_of_cons; eauto.
    + done.
    + done.
    + by econstructor.
Qed.

(** What a normal return of the refitter tells. *)
Lemma refitter_inv
    (causal_model_old causal_model_new : ProbabilisticCausalModel)
    (old_data new_data : nat) (α : Q) (fdr_control_method : option string)
    (w w' : World) (flags : gmap node bool)
    (models : ProbabilisticCausalModel * ProbabilisticCausalModel) :
  _fit_accounting_for_mechanism_change causal_model_old causal_model_new
    old_data new_data α fdr_control_method w = (Ok (flags, models), w') →
  ∃ (old_rows new_rows : DataFrame) (tests : list Event) (w1 : World),
    frames w !! old_data = Some old_rows
    ∧ frames w !! new_data = Some new_rows
    ∧ Forall (λ ev, ¬ is_fit ev) tests
    ∧ log w' = log w ++ tests
               ++ (nodes (graph causal_model_new)
                     ≫= fits_of_node flags old_rows new_rows (old_rows ++ new_rows))
    ∧ (∀ n, n ∈ nodes (graph causal_model_new) → is_Some (flags !! n))
    ∧ length (old_rows ++ new_rows) = length old_rows + length new_rows
    ∧ frames w' = frames w ++ [old_rows ++ new_rows]
    ∧ frames w' !! old_data = Some old_rows
    ∧ frames w' !! new_data = Some new_rows
    ∧ nodes (graph models.1) = nodes (graph causal_model_old)
    ∧ edges (graph models.1) = edges (graph causal_model_old)
    ∧ _check_significant_mechanism_change (graph causal_model_old) old_data
        new_data α fdr_control_method w = (Ok flags, w1)
    ∧ refits flags old_rows new_rows (old_rows ++ new_rows)
        (nodes (graph causal_model_new)) (causal_model_old, causal_model_new)
        (rng w1) models (rng w').
Proof.
  unfold _fit_accounting_for_mechanism_change.
  intros (flags' & w1 & Hcheck & Hrest)%bind_Ok_inv.
  apply bind_Ok_inv in Hrest as (joint & w2 & Happend & Hrest).
  apply bind_Ok_inv in Hrest as (models' & w3 & Hloop & [[= <- <-] <-]%mret_Ok_inv).
  destruct (check_logs_no_fit _ _ _ _ _ _ _ _ Hcheck) as (tests & Htests & Hnofit).
  pose proof (check_same_frames _ _ _ _ _ _ _ _ Hcheck) as Hfr1.
  unfold same_frames in Hfr1.
  apply frame_append_inv in Happend
    as (old_rows & new_rows & Ho & Hn & -> & Hfr2 & Hlog2 & Hrng2).
  rewrite Hfr1 in Ho, Hn, Hfr2.
  assert (frames w2 !! old_data = Some old_rows) as Ho2.
  { rewrite Hfr2. by apply lookup_app_l_Some. }
  assert (frames w2 !! new_data = Some new_rows) as Hn2.
  { rewrite Hfr2. by apply lookup_app_l_Some. }
  assert (frames w2 !! length (frames w1) = Some (old_rows ++ new_rows)) as Hj2.
  { rewrite Hfr2, Hfr1. by rewrite list_lookup_middle. }
  destruct (refit_loop_inv _ _ _ _ _ _ _ _ _ _ _ _ Ho2 Hn2 Hj2 Hloop)
    as (Hlog3 & Hfr3 & Hflags & Hnodes & Hedges & Hrefits).
  rewrite Hrng2 in Hrefits.
  exists old_rows, new_rows, tests, w1. rewrite Hfr3.
  split_and!; try done.
  - by rewrite Hlog3, Hlog2, Htests, <- app_assoc.
  - apply length_app.
Qed.

(** C5. Whenever the refitter returns, its fits are, node after node of the
    graph: for a node flagged as changed, the old model's mechanism on the
    rows of [old_data] and the new model's mechanism on the rows of
    [new_data]; for a node flagged as unchanged, both on the pooled table,
    whose rows are those of [old_data] followed by those of [new_data] and
    whose row count is the sum of the two.  This holds of the calls in the
    trace and of the models returned: the flags are those of the change
    detection, and the mechanism of a node in the returned old model is what
    fitting the old model on these rows returned, the mechanism of the node
    in the returned new model what fitting the new model returned
    ([refits]).  The change detection before the loop fits nothing.  The
    pooled table is a new object of the store: the tables [old_data] and
    [new_data] hold the rows they held before. *)
Theorem refitter_uses_regime_data
    (causal_model_old causal_model_new : ProbabilisticCausalModel)
    (old_data new_data : nat) (α : Q) (fdr_control_method : option string)
    (w w' : World) (flags : gmap node bool)
    (models : ProbabilisticCausalModel * ProbabilisticCausalModel) :
  _fit_accounting_for_mechanism_change causal_model_old causal_model_new
    old_data new_data α fdr_control_method w = (Ok (flags, models), w') →
  ∃ (old_rows new_rows : DataFrame) (tests : list Event) (w1 : World),
    frames w !! old_data = Some old_rows
    ∧ frames w !! new_data = Some new_rows
    ∧ Forall (λ ev, ¬ is_fit ev) tests
    ∧ log w' = log w ++ tests
               ++ (nodes (graph causal_model_new)
                     ≫= fits_of_node flags old_rows new_rows (old_rows ++ new_rows))
    ∧ (∀ n, n ∈ nodes (graph causal_model_new) → is_Some (flags !! n))
    ∧ length (old_rows ++ new_rows) = length old_rows + length new_rows
    ∧ frames w' = frames w ++ [old_rows ++ new_rows]
    ∧ frames w' !! old_data = Some old_rows
    ∧ frames w' !! new_data = Some new_rows
    ∧ _check_significant_mechanism_change (graph causal_model_old) old_data
        new_data α fdr_control_method w = (Ok flags, w1)
    ∧ refits flags old_rows new_rows (old_rows ++ new_rows)
        (nodes (graph causal_model_new)) (causal_model_old, causal_model_new)
        (rng w1) models (rng w').
Proof.
  intros Hrun.
  destruct (refitter_inv _ _ _ _ _ _ _ _ _ _ Hrun)
    as (old_rows & new_rows & tests & w1
        & ? & ? & ? & ? & ? & ? & ? & ? & ? & _ & _ & ? & ?).
  by exists old_rows, new_rows, tests, w1.
Qed.

(** ** The Shapley attribution driver *)

Section Shapley.
Context `{node_le_total_order : !TotalOrder (node_le (node:=node))}.

#[local] Instance node_le_total : Total node_le.
Proof. apply trichotomy_total; apply _. Qed.

(** Sorting forgets the order the nodes are enumerated in. *)
Lemma sorted_Permutation l1 l2 : l1 ≡ₚ l2 → sorted l1 = sorted l2.
Proof.
  intros Hp. unfold sorted.
  apply (StronglySorted_unique node_le); [apply StronglySorted_merge_sort; apply _..|].
  by rewrite !merge_sort_Permutation.
Qed.

Lemma sorted_NoDup l : NoDup l → NoDup (sorted l).
Proof. intros Hnd. unfold sorted. by rewrite merge_sort_Permutation. Qed.

Lemma sorted_elem_of l n : n ∈ sorted l ↔ n ∈ l.
Proof. unfold sorted. by rewrite merge_sort_Permutation. Qed.


Lemma mechanism_of_set_node_mechanism g n mechanism n' :
  mechanism_of (set_node_mechanism g n mechanism) n'
  = if decide (n = n') then Some mechanism else mechanism_of g n'.
Proof.
  unfold mechanism_of, set_node_mechanism. simpl.
  rewrite lookup_insert. by destruct (decide (n = n')).
Qed.

Lemma mechanism_of_set_node_parents g n parents n' :
  mechanism_of (set_node_parents g n parents) n' = mechanism_of g n'.
Proof.
  unfold mechanism_of, set_node_parents. simpl.
  rewrite lookup_insert. destruct (decide (n = n')) as [->|]; [|done].
  simpl. by destruct (attrs g !! n') as [[]|].
Qed.

Lemma causal_mechanism_inv causal_model n w mechanism w' :
  causal_mechanism causal_model n w = (Ok mechanism, w') →
  mechanism_of (graph causal_model) n = Some mechanism ∧ w' = w.
Proof. unfold causal_mechanism. by intros [? ->]%lift_option_Ok_inv. Qed.

(** The list comprehensions of lines 238-239. *)
Lemma mapM_causal_mechanism_inv causal_model ns w mechanisms w' :
  mapM (causal_mechanism causal_model) ns w = (Ok mechanisms, w') →
  Forall2 (λ n mechanism, mechanism_of (graph causal_model) n = Some mechanism)
    ns mechanisms
  ∧ w' = w.
Proof.
  revert w mechanisms w'. induction ns as [|n ns IH]; intros w mechanisms w'; simpl.
  - intros [<- <-]%mret_Ok_inv. by split.
  - intros (m & w1 & [Hm ->]%causal_mechanism_inv
            & (ms & w2 & [Hms ->]%IH & [<- <-]%mret_Ok_inv)%bind_Ok_inv)%bind_Ok_inv.
    split; [by constructor|done].
Qed.

Lemma assign_mechanism_inv nodes_ olds news subset i causal_model w causal_model' w' :
  assign_mechanism nodes_ olds news subset i causal_model w = (Ok causal_model', w') →
  ∃ n mechanism,
    nodes_ !! i = Some n
    ∧ mechanism_of_player olds news subset i = Some mechanism
    ∧ causal_model' = mkPCM (set_node_mechanism (graph causal_model) n mechanism)
    ∧ w' = w.
Proof.
  unfold assign_mechanism, mechanism_of_player.
  intros (s & w1 & [Hs <-]%lift_option_Ok_inv
          & (n & w2 & [Hn <-]%lift_option_Ok_inv & Hrest)%bind_Ok_inv)%bind_Ok_inv.
  rewrite Hs. simpl. exists n.
  destruct (bool_decide (s = 1%Z));
    apply bind_Ok_inv in Hrest as (m & w3 & [Hm <-]%lift_option_Ok_inv & Hset);
    unfold set_causal_mechanism in Hset;
    destruct (decide (n ∈ nodes (graph causal_model))); try done;
    apply mret_Ok_inv in Hset as [<- <-]; eauto.
Qed.

Lemma assign_mechanism_ok nodes_ olds news subset i causal_model w n mechanism :
  nodes_ !! i = Some n →
  mechanism_of_player olds news subset i = Some mechanism →
  n ∈ nodes (graph causal_model) →
  assign_mechanism nodes_ olds news subset i causal_model w
  = (Ok (mkPCM (set_node_mechanism (graph causal_model) n mechanism)), w).
Proof.
  unfold assign_mechanism, mechanism_of_player. intros Hn Hm Hin.
  destruct (subset !! i) as [s|]; [|done]. simpl in Hm.
  rewrite (bind_Ok _ _ _ _ _ (lift_option_Some _ _ _)), Hn,
    (bind_Ok _ _ _ _ _ (lift_option_Some _ _ _)).
  destruct (bool_decide (s = 1%Z)); rewrite Hm,
    (bind_Ok _ _ _ _ _ (lift_option_Some _ _ _));
    unfold set_causal_mechanism; by rewrite decide_True.
Qed.

(** The loop over the players, run to its end: the nodes are those of the
    copy, every player's node holds the mechanism of that player, and the
    other nodes hold what they held. *)
Lemma assign_loop_inv nodes_ olds news subset indices causal_model w causal_model' w' :
  NoDup nodes_ → NoDup indices →
  for_each indices causal_model (assign_mechanism nodes_ olds news subset) w
  = (Ok causal_model', w') →
  w' = w
  ∧ nodes (graph causal_model') = nodes (graph causal_model)
  ∧ (∀ i n, i ∈ indices → nodes_ !! i = Some n →
       mechanism_of (graph causal_model') n = mechanism_of_player olds news subset i)
  ∧ (∀ n, (∀ i, i ∈ indices → nodes_ !! i ≠ Some n) →
       mechanism_of (graph causal_model') n = mechanism_of (graph causal_model) n).
Proof.
  intros Hnd. revert causal_model w.
  induction indices as [|i indices IH]; intros causal_model w Hndi; simpl.
  - intros [<- <-]%mret_Ok_inv. split_and!; try done.
    intros i n Hi. by apply elem_of_nil in Hi.
  - apply NoDup_cons in Hndi as [Hi Hndi].
    intros (cm1 & w1 & (n & m & Hn & Hm & -> & ->)%assign_mechanism_inv
            & Hrest)%bind_Ok_inv.
    apply IH in Hrest as (-> & Hnodes & Hset & Hkeep); [|done].
    simpl in Hnodes, Hkeep.
    split_and!; try done.
    + intros j n' [->|Hj]%elem_of_cons Hn'; [|by eapply Hset].
      simplify_eq. rewrite Hkeep.
      * rewrite mechanism_of_set_node_mechanism, decide_True; done.
      * intros j Hj Hnj. apply Hi.
        by rewrite (NoDup_lookup _ _ _ _ Hnd Hn Hnj).
    + intros n' Hn'. rewrite Hkeep.
      * rewrite mechanism_of_set_node_mechanism, decide_False; [done|].
        intros <-. by apply (Hn' i); [left|].
      * intros j Hj. apply Hn'. by right.
Qed.

Lemma assign_loop_ok nodes_ olds news subset indices causal_model w :
  (∀ i, i ∈ indices →
     ∃ n, nodes_ !! i = Some n ∧ n ∈ nodes (graph causal_model)
          ∧ is_Some (mechanism_of_player olds news subset i)) →
  ∃ causal_model',
    for_each indices causal_model (assign_mechanism nodes_ olds news subset) w
    = (Ok causal_model', w).
Proof.
  revert causal_model. induction indices as [|i indices IH]; intros causal_model Hall.
  - by eexists.
  - destruct (Hall i) as (n & Hn & Hin & [m Hm]); [by left|]. simpl.
    rewrite (bind_Ok _ _ _ _ _ (assign_mechanism_ok _ _ _ _ _ _ _ _ _ Hn Hm Hin)).
    apply IH. intros j Hj. destruct (Hall j) as (n' & ? & ? & ?); [by right|].
    by exists n'.
Qed.

Lemma attach_loop_run ns causal_model w :
  ∃ causal_model',
    for_each ns causal_model attach_parents w = (Ok causal_model', w)
    ∧ nodes (graph causal_model') = nodes (graph causal_model)
    ∧ ∀ n, mechanism_of (graph causal_model') n = mechanism_of (graph causal_model) n.
Proof.
  revert causal_model. induction ns as [|n ns IH]; intros causal_model.
  - by eexists.
  - simpl. unfold attach_parents at 1.
    rewrite (bind_Ok _ _ w
      (mkPCM (set_node_parents (graph causal_model) n
                (get_ordered_predecessors (graph causal_model) n))) w) by done.
    destruct (IH (mkPCM (set_node_parents (graph causal_model) n
                (get_ordered_predecessors (graph causal_model) n))))
      as (cm' & Hrun & Hnodes & Hmech).
    simpl in Hnodes, Hmech.
    exists cm'. split_and!; [done|by rewrite Hnodes|].
    intros n'. by rewrite Hmech, mechanism_of_set_node_parents.
Qed.

(** The dictionary comprehension of line 265, on any list of indexed keys. *)
Lemma attribution_items_inv (attributions : list float) (items : list (nat * node))
    (d0 : gmap node float) w d w' :
  NoDup items.*2 →
  for_each items d0 (λ ix d,
    a ← lift_option IndexError (attributions !! ix.1); mret (<[ix.2 := a]> d)) w
  = (Ok d, w') →
  w' = w
  ∧ (∀ i n, (i, n) ∈ items → ∃ a, attributions !! i = Some a ∧ d !! n = Some a)
  ∧ (∀ n, n ∉ items.*2 → d !! n = d0 !! n).
Proof.
  revert d0 w. induction items as [|[i n] items IH]; intros d0 w Hnd; simpl.
  - intros [<- <-]%mret_Ok_inv. split_and!; try done.
    intros i n Hin. by apply elem_of_nil in Hin.
  - apply NoDup_cons in Hnd as [Hn Hnd].
    intros (d1 & w1 & (a & w2 & [Ha <-]%lift_option_Ok_inv
                       & [<- <-]%mret_Ok_inv)%bind_Ok_inv & Hrest)%bind_Ok_inv.
    apply IH in Hrest as (-> & Hitems & Hother); [|done].
    split_and!; [done| |].
    + intros j n' [[= -> ->]|Hin]%elem_of_cons; [|by apply Hitems].
      exists a. split; [done|]. rewrite Hother by done. apply lookup_insert_eq.
    + intros n' [Hne Hn']%not_elem_of_cons.
      rewrite Hother by done. by apply lookup_insert_ne.
Qed.

Lemma attribution_dict_inv sorted_nodes attributions w d w' :
  NoDup sorted_nodes →
  attribution_dict sorted_nodes attributions w = (Ok d, w') →
  w' = w
  ∧ (∀ i n, sorted_nodes !! i = Some n →
       ∃ a, attributions !! i = Some a ∧ d !! n = Some a)
  ∧ (∀ n, n ∉ sorted_nodes → d !! n = None).
Proof.
  intros Hnd Hrun.
  assert ((imap (λ i x, (i, x)) sorted_nodes).*2 = sorted_nodes) as Hsnd.
  { apply list_eq. intros i. rewrite list_lookup_fmap, list_lookup_imap.
    by destruct (sorted_nodes !! i). }
  apply attribution_items_inv in Hrun as (-> & Hitems & Hother);
    [|by rewrite Hsnd].
  split_and!; [done| |].
  - intros i n Hn. apply Hitems, elem_of_lookup_imap. eauto.
  - intros n Hn. rewrite Hother; [done|by rewrite Hsnd].
Qed.

Lemma hybrid_model_spec causal_model_old olds news subset w :
  NoDup (nodes (graph causal_model_old)) →
  nodes (graph_factory (graph causal_model_old)) ≡ₚ nodes (graph causal_model_old) →
  let players := sorted (nodes (graph causal_model_old)) in
  length olds = length players → length news = length players →
  length players ≤ length subset →
  ∃ hybrid,
    hybrid_model causal_model_old olds news subset w
    = (Ok hybrid,
       mkWorld (rng w) (log w ++ [EvGraphFactory (graph causal_model_old)]) (frames w))
    ∧ ∀ i n, players !! i = Some n →
        mechanism_of (graph hybrid) n = mechanism_of_player olds news subset i.
Proof.
  intros Hnd Hcopy players Holds Hnews Hsubset.
  set (w1 := mkWorld (rng w) (log w ++ [EvGraphFactory (graph causal_model_old)])
               (frames w)).
  assert (sorted (nodes (graph_factory (graph causal_model_old))) = players) as Hplayers.
  { by apply sorted_Permutation. }
  assert (NoDup players) as Hndp by by apply sorted_NoDup.
  unfold hybrid_model.
  rewrite (bind_Ok _ _ w (graph_factory (graph causal_model_old)) w1) by done.
  cbv zeta. simpl graph. rewrite Hplayers.
  destruct (assign_loop_ok players olds news subset (seq 0 (length olds))
              (mkPCM (graph_factory (graph causal_model_old))) w1) as [cm1 Hloop].
  { intros i [_ Hi]%elem_of_seq. simpl in Hi. rewrite Holds in Hi.
    destruct (lookup_lt_is_Some_2 players i Hi) as [n Hn]. exists n.
    split_and!; [done| |].
    - simpl. rewrite Hcopy. apply sorted_elem_of. by eapply list_elem_of_lookup_2.
    - unfold mechanism_of_player.
      destruct (lookup_lt_is_Some_2 subset i) as [s ->]; [lia|]. simpl.
      destruct (bool_decide (s = 1%Z)); apply lookup_lt_is_Some_2; lia. }
  rewrite (bind_Ok _ _ _ _ _ Hloop).
  apply assign_loop_inv in Hloop as (_ & Hnodes & Hset & _);
    [|done|apply NoDup_seq].
  destruct (attach_loop_run (nodes (graph cm1)) cm1 w1) as (hybrid & Hrun & _ & Hmech).
  exists hybrid. split; [done|].
  intros i n Hn. rewrite Hmech. apply Hset; [|done].
  apply elem_of_seq. apply lookup_lt_Some in Hn. lia.
Qed.

(** A subset with a nonzero entry takes the value function past its
    shortcut. *)
Lemma subset_not_all_zero (subset : list Z) :
  ¬ Forall (λ s, s = 0%Z) subset →
  forallb (λ s, bool_decide (s = 0%Z)) subset = false.
Proof.
  intros Hnz. destruct (forallb _ subset) eqn:Hall; [|done].
  exfalso. apply Hnz. apply Forall_forall. intros s Hs.
  rewrite forallb_forall in Hall. apply list_elem_of_In, Hall in Hs.
  by apply bool_decide_eq_true in Hs.
Qed.

(** Lines 247-261 once the hybrid model is built: the value function draws
    from that model and compares with the samples of the old model. *)
Lemma attribution_set_function_hybrid causal_model_old olds news target_samples_old
    target_node num_samples subset w hybrid w1 :
  ¬ Forall (λ s, s = 0%Z) subset →
  hybrid_model causal_model_old olds news subset w = (Ok hybrid, w1) →
  attribution_set_function causal_model_old olds news target_samples_old
    target_node num_samples subset w
  = (target_samples_new ← draw_target_samples hybrid num_samples target_node;
     call (EvDifference target_samples_old target_samples_new)
          (difference_estimation_func target_samples_old target_samples_new)) w1.
Proof.
  intros Hnz Hhybrid. unfold attribution_set_function.
  by rewrite (subset_not_all_zero _ Hnz), (bind_Ok _ _ _ _ _ Hhybrid).
Qed.

Lemma sample_and_compare_inv (causal_model : ProbabilisticCausalModel)
    target_samples_old target_node num_samples w1 value w' :
  (target_samples_new ← draw_target_samples causal_model num_samples target_node;
   call (EvDifference target_samples_old target_samples_new)
        (difference_estimation_func target_samples_old target_samples_new)) w1
  = (Ok value, w') →
  ∃ df target_samples_new g1,
    draw_samples causal_model num_samples (rng w1) = (Ok df, g1)
    ∧ (∀ w0, column_of df target_node w0 = (Ok target_samples_new, w0))
    ∧ difference_estimation_func target_samples_old target_samples_new g1
      = (Ok value, rng w')
    ∧ log w' = log w1 ++ [EvDrawSamples (graph causal_model) num_samples;
                          EvDifference target_samples_old target_samples_new]
    ∧ frames w' = frames w1.
Proof.
  intros (tsn & w2 & Hdraw & Hdiff)%bind_Ok_inv.
  unfold draw_target_samples in Hdraw.
  apply bind_Ok_inv in Hdraw as (df & w3 & (L1 & F1 & Hdf)%call_inv & Hcol).
  unfold column_of in Hcol.
  destruct (mapM (λ row : gmap node Val, row !! target_node) df) as [xs|] eqn:Hxs;
    [|done].
  simpl in Hcol. injection Hcol as <- <-.
  apply call_inv in Hdiff as (L2 & F2 & Hvalue).
  exists df, (Arr1 xs), (rng w3). split_and!; try done.
  - intros w0. unfold column_of. by rewrite Hxs.
  - rewrite L2, L1. by rewrite <- app_assoc.
  - congruence.
Qed.

(** C1. For two models on the same node set (the copies and the new graph
    may enumerate the nodes in any order), the players of the Shapley game
    are the nodes in sorted order.  When the value function is called with a
    subset that is not all zero, it copies the old graph and builds the
    hybrid model of that subset, in which the i-th sorted node has the new
    model's mechanism of that node where the subset holds 1 and the old
    model's mechanism of that node where it holds 0; it is this hybrid model
    it draws [num_samples] samples from, and the value it returns is the
    difference function applied to the old model's target samples and the
    target column of that draw.  The driver plays the game with this value
    function on the mechanisms of the two models in sorted node order, and
    the dictionary it returns maps the i-th sorted node to the i-th value
    the Shapley estimator returned. *)
Theorem shapley_players_follow_sorted_nodes
    (causal_model_old causal_model_new : ProbabilisticCausalModel)
    (target_node : node) (num_samples : nat)
    (shapley_config : option ShapleyConfig) :
  NoDup (nodes (graph causal_model_old)) →
  nodes (graph_factory (graph causal_model_old)) ≡ₚ nodes (graph causal_model_old) →
  nodes (graph causal_model_new) ≡ₚ nodes (graph causal_model_old) →
  let players := sorted (nodes (graph causal_model_old)) in
  (∀ olds news target_samples_old subset w,
     mapM (causal_mechanism causal_model_old) players w = (Ok olds, w) →
     mapM (causal_mechanism causal_model_new)
       (sorted (nodes (graph causal_model_new))) w = (Ok news, w) →
     length players ≤ length subset →
     ¬ Forall (λ s, s = 0%Z) subset →
     ∃ hybrid,
       let w1 := mkWorld (rng w) (log w ++ [EvGraphFactory (graph causal_model_old)])
                   (frames w) in
       hybrid_model causal_model_old olds news subset w = (Ok hybrid, w1)
       ∧ (∀ i n, players !! i = Some n →
            (subset !! i = Some 1%Z →
               is_Some (mechanism_of (graph hybrid) n)
               ∧ mechanism_of (graph hybrid) n
                 = mechanism_of (graph causal_model_new) n)
            ∧ (subset !! i = Some 0%Z →
                 is_Some (mechanism_of (graph hybrid) n)
                 ∧ mechanism_of (graph hybrid) n
                   = mechanism_of (graph causal_model_old) n))
       ∧ attribution_set_function causal_model_old olds news target_samples_old
           target_node num_samples subset w
         = (target_samples_new ← draw_target_samples hybrid num_samples target_node;
            call (EvDifference target_samples_old target_samples_new)
                 (difference_estimation_func target_samples_old target_samples_new))
             w1
       ∧ (∀ value w',
            attribution_set_function causal_model_old olds news target_samples_old
              target_node num_samples subset w = (Ok value, w') →
            ∃ df target_samples_new g1,
              draw_samples hybrid num_samples (rng w) = (Ok df, g1)
              ∧ (∀ w0, column_of df target_node w0 = (Ok target_samples_new, w0))
              ∧ difference_estimation_func target_samples_old target_samples_new g1
                = (Ok value, rng w')
              ∧ log w' = log w
                         ++ [EvGraphFactory (graph causal_model_old);
                             EvDrawSamples (graph hybrid) num_samples;
                             EvDifference target_samples_old target_samples_new]
              ∧ frames w' = frames w))
  ∧ (∀ w d w',
       __estimate_marginal_distribution_change causal_model_old causal_model_new
         target_node num_samples shapley_config w = (Ok d, w') →
       ∃ olds news target_samples_old attributions w0 w1,
         mapM (causal_mechanism causal_model_old) players w = (Ok olds, w)
         ∧ mapM (causal_mechanism causal_model_new)
             (sorted (nodes (graph causal_model_new))) w = (Ok news, w)
         ∧ draw_target_samples causal_model_old num_samples target_node w
           = (Ok target_samples_old, w0)
         ∧ w1 = mkWorld (rng w0) (log w0 ++ [EvShapley (length players)]) (frames w0)
         ∧ estimate_shapley_values
             (attribution_set_function causal_model_old olds news
                target_samples_old target_node num_samples)
             (length players) shapley_config w1 = (Ok attributions, w')
         ∧ (∀ i n, players !! i = Some n →
              ∃ a, attributions !! i = Some a ∧ d !! n = Some a)
         ∧ (∀ n, n ∉ players → d !! n = None)).
Proof.
  intros Hnd Hcopy Hnew players.
  assert (sorted (nodes (graph causal_model_new)) = players) as Hplayers_new.
  { by apply sorted_Permutation. }
  assert (NoDup players) as Hndp by by apply sorted_NoDup.
  split.
  - intros olds news tso subset w Holds Hnews Hsubset Hnz. rewrite Hplayers_new in Hnews.
    apply mapM_causal_mechanism_inv in Holds as [Fold _].
    apply mapM_causal_mechanism_inv in Hnews as [Fnew _].
    destruct (hybrid_model_spec causal_model_old olds news subset w Hnd Hcopy)
      as (hybrid & Hrun & Hmech);
      [symmetry; by eapply Forall2_length..|done|].
    exists hybrid. cbv zeta.
    pose proof (attribution_set_function_hybrid _ _ _ tso target_node num_samples
                  _ _ _ _ Hnz Hrun) as Hvalue.
    split_and!; [done| |done|].
    + intros i n Hn. rewrite (Hmech i n Hn). unfold mechanism_of_player.
      split; intros ->; simpl.
      * destruct (Forall2_lookup_l _ _ _ _ _ Fnew Hn) as (m & -> & ->). eauto.
      * destruct (Forall2_lookup_l _ _ _ _ _ Fold Hn) as (m & -> & ->). eauto.
    + intros value w'. rewrite Hvalue.
      intros (df & tsn & g1 & ? & ? & ? & Hlog & ?)%sample_and_compare_inv.
      exists df, tsn, g1. split_and!; try done.
      rewrite Hlog. simpl. by rewrite <- app_assoc.
  - intros w d w'. unfold __estimate_marginal_distribution_change.
    intros (olds & w1 & Holds & Hrest)%bind_Ok_inv.
    apply bind_Ok_inv in Hrest as (news & w2 & Hnews & Hrest).
    pose proof (mapM_causal_mechanism_inv _ _ _ _ _ Holds) as [Fold ->].
    pose proof (mapM_causal_mechanism_inv _ _ _ _ _ Hnews) as [Fnew ->].
    apply bind_Ok_inv in Hrest as (tso & w3 & Hdraw & Hrest).
    apply bind_Ok_inv in Hrest as ([] & w4 & [= <-] & Hrest).
    apply bind_Ok_inv in Hrest as (attributions & w5 & Hshapley & Hdict).
    apply attribution_dict_inv in Hdict as (-> & Hkeys & Hother); [|done].
    exists olds, news, tso, attributions, w3, 
      (mkWorld (rng w3) (log w3 ++ [EvShapley (length olds)]) (frames w3)).
    assert (length players = length olds) as -> by by eapply Forall2_length.
    done.
Qed.

End Shapley.

(** ** The anomaly-score estimator, node by node *)

Definition any_event : Event → Prop := λ _, True.

Lemma monte_carlo_loop_logs orig anom num thr rows result run :
  steps (logs any_event) (monte_carlo_loop orig anom num thr rows result run).
Proof.
  revert result run. induction rows as [|r rows IH]; intros result run; simpl.
  - steps_tac.
  - unfold row_contribution.
    apply steps_bind; [apply _| |intros d].
    + steps_tac.
    + destruct (early_stop _ _ _); [steps_tac|apply IH].
Qed.

Lemma monte_carlo_loop_same_frames orig anom num thr rows result run :
  steps same_frames (monte_carlo_loop orig anom num thr rows result run).
Proof.
  revert result run. induction rows as [|r rows IH]; intros result run; simpl.
  - steps_tac.
  - unfold row_contribution.
    apply steps_bind; [apply _| |intros d].
    + steps_tac.
    + destruct (early_stop _ _ _); [steps_tac|apply IH].
Qed.

Lemma score_of_node_same_frames causal_model original_data anomaly_data flags
    max num thr n :
  steps same_frames
    (score_of_node causal_model original_data anomaly_data flags max num thr n).
Proof.
  unfold score_of_node, _estimate_distribution_change_score, evaluation_rows,
    monte_carlo_mean, np_random_choice, take_rows, causal_mechanism,
    column, columns, column_of.
  repeat first [apply monte_carlo_loop_same_frames | steps_step].
Qed.

Lemma score_of_node_logs causal_model original_data anomaly_data flags max num thr n :
  steps (logs any_event)
    (score_of_node causal_model original_data anomaly_data flags max num thr n).
Proof.
  unfold score_of_node, _estimate_distribution_change_score, evaluation_rows,
    monte_carlo_mean, np_random_choice, take_rows, causal_mechanism,
    column, columns, column_of.
  repeat first [apply monte_carlo_loop_logs | steps_step].
Qed.


Lemma column_inv data n w a w' :
  column data n w = (Ok a, w') → w' = w.
Proof.
  unfold column, column_of.
  by intros (df & w1 & [_ ->]%read_frame_inv & [_ <-]%lift_option_Ok_inv)%bind_Ok_inv.
Qed.

Lemma columns_inv data ns w a w' :
  columns data ns w = (Ok a, w') → w' = w.
Proof.
  unfold columns.
  by intros (df & w1 & [_ ->]%read_frame_inv & [_ <-]%lift_option_Ok_inv)%bind_Ok_inv.
Qed.

(** The loop over the nodes that fills [results], as a chain of worlds. *)
Lemma results_loop_chain (f : node → M float) ns (results0 : gmap node float)
    w results w' :
  NoDup ns →
  for_each ns results0 (λ n results, score ← f n; mret (<[n := score]> results)) w
  = (Ok results, w') →
  chain (λ n wa wb, ∃ score, f n wa = (Ok score, wb) ∧ results !! n = Some score)
    ns w w'
  ∧ (∀ n, n ∉ ns → results !! n = results0 !! n).
Proof.
  revert results0 w. induction ns as [|n ns IH]; intros results0 w Hnd; simpl.
  - intros [<- <-]%mret_Ok_inv. split; [constructor|done].
  - apply NoDup_cons in Hnd as [Hn Hnd].
    intros (r1 & w1 & (score & w2 & Hscore & [<- <-]%mret_Ok_inv)%bind_Ok_inv
            & Hrest)%bind_Ok_inv.
    apply IH in Hrest as (Hchain & Hout); [|done].
    split.
    + econstructor; [|exact Hchain]. exists score. split; [done|].
      rewrite Hout by done. apply lookup_insert_eq.
    + intros n' [Hne Hn']%not_elem_of_cons. rewrite Hout by done.
      by apply lookup_insert_ne.
Qed.

Lemma chain_impl {A} (P Q : A → World → World → Prop) xs w w' :
  (∀ x wa wb, P x wa wb → Q x wa wb) → chain P xs w w' → chain Q xs w w'.
Proof. intros HPQ. induction 1; econstructor; eauto. Qed.

Lemma chain_cons_inv {A} (step : A → World → World → Prop) x xs w w' :
  chain step (x :: xs) w w' → ∃ w1, step x w w1 ∧ chain step xs w1 w'.
Proof. inversion 1; eauto. Qed.

(** The three cases of the score of one node. *)
Lemma score_of_node_cases causal_model original_data anomaly_data flags
    max num thr n wa score wb :
  score_of_node causal_model original_data anomaly_data flags max num thr n wa
  = (Ok score, wb) →
  ∃ changed evs,
    flags !! n = Some changed
    ∧ log wb = log wa ++ evs
    ∧ frames wb = frames wa
    ∧ (changed = false → score = Finite 0 ∧ evs = [] ∧ wb = wa)
    ∧ (changed = true → is_root_node (graph causal_model) n = true →
         ∃ a b,
           column original_data n wa = (Ok a, wa)
           ∧ column anomaly_data n wa = (Ok b, wa)
           ∧ difference_estimation_func a b (rng wa) = (Ok score, rng wb)
           ∧ evs = [EvDifference a b])
    ∧ (changed = true → is_root_node (graph causal_model) n = false →
         ∃ parent_original_data parent_anomaly_data target_anomaly_data mechanism,
           columns original_data
             (get_ordered_predecessors (graph causal_model) n) wa
           = (Ok parent_original_data, wa)
           ∧ columns anomaly_data
               (get_ordered_predecessors (graph causal_model) n) wa
             = (Ok parent_anomaly_data, wa)
           ∧ column anomaly_data n wa = (Ok target_anomaly_data, wa)
           ∧ mechanism_of (graph causal_model) n = Some mechanism
           ∧ _estimate_distribution_change_score parent_original_data
               parent_anomaly_data target_anomaly_data mechanism max num thr wa
             = (Ok score, wb))
    ∧ (Exists is_monte_carlo evs →
         changed = true ∧ is_root_node (graph causal_model) n = false).
Proof.
  intros Hrun.
  destruct (score_of_node_logs _ _ _ _ _ _ _ _ _ _ _ Hrun) as (evs & Hevs & _).
  pose proof (score_of_node_same_frames _ _ _ _ _ _ _ _ _ _ _ Hrun) as Hfr.
  unfold score_of_node in Hrun.
  apply bind_Ok_inv in Hrun as (changed & w0 & [Hflag <-]%lift_option_Ok_inv & Hrun).
  exists changed, evs. split; [done|]. split; [done|]. split; [done|].
  destruct changed.
  - destruct (is_root_node (graph causal_model) n) eqn:Hroot.
    + apply bind_Ok_inv in Hrun as (a & w1 & Ha & Hrun).
      pose proof (column_inv _ _ _ _ _ Ha) as ->.
      apply bind_Ok_inv in Hrun as (b & w2 & Hb & Hrun).
      pose proof (column_inv _ _ _ _ _ Hb) as ->.
      apply call_inv in Hrun as (Hlog & _ & Hdiff).
      assert (evs = [EvDifference a b]) as ->.
      { rewrite Hevs in Hlog. by apply app_inv_head in Hlog. }
      split_and!; try done.
      * intros _ _. by exists a, b.
      * intros [Hmc|Hmc%Exists_nil]%Exists_cons; done.
    + split_and!; try done.
      intros _ _.
      apply bind_Ok_inv in Hrun as (po & w1 & Hpo & Hrun).
      pose proof (columns_inv _ _ _ _ _ Hpo) as ->.
      apply bind_Ok_inv in Hrun as (pa & w2 & Hpa & Hrun).
      pose proof (columns_inv _ _ _ _ _ Hpa) as ->.
      apply bind_Ok_inv in Hrun as (ta & w3 & Hta & Hrun).
      pose proof (column_inv _ _ _ _ _ Hta) as ->.
      apply bind_Ok_inv in Hrun as (m & w4 & [Hm ->]%causal_mechanism_inv & Hrun).
      by exists po, pa, ta, m.
  - apply mret_Ok_inv in Hrun as [<- <-].
    assert (evs = []) as ->.
    { rewrite <- (app_nil_r (log wa)) in Hevs at 1. by apply app_inv_head in Hevs. }
    split_and!; try done. by intros ?%Exists_nil.
Qed.

(** C9. Whenever [estimate_distribution_change_scores] returns, the run
    after the validation and the change detection is the chain of the
    iterations of the nodes of the graph, in order, and nothing else; every
    node has a score, and its iteration, from the world [wa] it starts in to
    the world [wb] it ends in, is one of three: a node with no significant
    change scores 0, and nothing happens ([wb] is [wa]); a changed root node
    scores what the difference function returns on the node's original and
    anomaly columns, and that call is all there is between [wa] and [wb] --
    one trace entry, no mechanism is cloned, refitted or sampled; for a
    changed node with parents, the score and [wb] are those of the
    Monte-Carlo evaluation run in [wa] on the node's parent columns, its
    anomaly column and its mechanism.  A trace entry of the Monte-Carlo
    evaluation (cloning, refitting or sampling a mechanism) occurs in the
    iteration of a node only if the node is changed and is not a root. *)
Theorem anomaly_scores_by_case (causal_model : ProbabilisticCausalModel)
    (original_data anomaly_data : nat) (max_num_evaluation_samples : Z)
    (num_joint_samples : nat) (early_stopping_percentage : float) (α : Q)
    (fdr_control_method : option string) (w w' : World) (results : gmap node float) :
  NoDup (nodes (graph causal_model)) →
  estimate_distribution_change_scores causal_model original_data anomaly_data
    max_num_evaluation_samples num_joint_samples early_stopping_percentage
    α fdr_control_method w = (Ok results, w') →
  ∃ flags w0 w1,
    validate_causal_dag (graph causal_model) w = (Ok tt, w0)
    ∧ _check_significant_mechanism_change (graph causal_model) original_data
        anomaly_data α fdr_control_method w0 = (Ok flags, w1)
    ∧ chain
        (λ n wa wb,
           ∃ changed score evs,
             flags !! n = Some changed
             ∧ results !! n = Some score
             ∧ log wb = log wa ++ evs
             ∧ frames wb = frames wa
             ∧ (changed = false → score = Finite 0 ∧ evs = [] ∧ wb = wa)
             ∧ (changed = true → is_root_node (graph causal_model) n = true →
                  ∃ a b,
                    column original_data n wa = (Ok a, wa)
                    ∧ column anomaly_data n wa = (Ok b, wa)
                    ∧ difference_estimation_func a b (rng wa)
                      = (Ok score, rng wb)
                    ∧ evs = [EvDifference a b])
             ∧ (changed = true → is_root_node (graph causal_model) n = false →
                  ∃ parent_original_data parent_anomaly_data target_anomaly_data
                    mechanism,
                    columns original_data
                      (get_ordered_predecessors (graph causal_model) n) wa
                    = (Ok parent_original_data, wa)
                    ∧ columns anomaly_data
                        (get_ordered_predecessors (graph causal_model) n) wa
                      = (Ok parent_anomaly_data, wa)
                    ∧ column anomaly_data n wa = (Ok target_anomaly_data, wa)
                    ∧ mechanism_of (graph causal_model) n = Some mechanism
                    ∧ _estimate_distribution_change_score parent_original_data
                        parent_anomaly_data target_anomaly_data mechanism
                        max_num_evaluation_samples num_joint_samples
                        early_stopping_percentage wa = (Ok score, wb))
             ∧ (Exists is_monte_carlo evs →
                  changed = true ∧ is_root_node (graph causal_model) n = false))
        (nodes (graph causal_model)) w1 w'.
Proof.
  intros Hnd. unfold estimate_distribution_change_scores.
  intros ([] & w0 & Hvalid & (flags & w1 & Hcheck & Hloop)%bind_Ok_inv)%bind_Ok_inv.
  exists flags, w0, w1. split; [done|]. split; [done|].
  apply results_loop_chain in Hloop as [Hchain _]; [|done].
  eapply chain_impl; [|exact Hchain].
  intros n wa wb (score & Hscore & Hres).
  apply score_of_node_cases in Hscore
    as (changed & evs & Hflag & Hevs & Hfr & Hunchanged & Hroot & Hmc & Honly).
  by exists changed, score, evs.
Qed.

(** ** Acyclicity *)

Lemma path_nodes g a b : path g a b → a ∈ nodes g ∧ b ∈ nodes g.
Proof. induction 1 as [a b Ha Hb Hab|a b c Hab IH Hc Hbc]; [done|]. by destruct IH. Qed.

Lemma path_trans g a b c : path g a b → path g b c → path g a c.
Proof. intros Hab Hbc. induction Hbc; eauto using path. Qed.

(** A set of nodes in which every node has a predecessor survives every
    round of the removal of sources. *)
Lemma peel_sources_keeps (S : node → Prop) es fuel remaining :
  (∀ x, S x → ∃ b, S b ∧ (b, x) ∈ es) →
  (∀ x, S x → x ∈ remaining) →
  ∀ x, S x → x ∈ peel_sources fuel es remaining.
Proof.
  intros Hpred. revert remaining.
  induction fuel as [|fuel IH]; intros remaining Hrem x Hx; simpl; [by apply Hrem|].
  apply IH; [|done]. intros y Hy. unfold with_incoming.
  apply list_elem_of_filter. split; [|by apply Hrem].
  destruct (Hpred y Hy) as (b & Hb & Hedge).
  apply Exists_exists. exists (b, y). split; [done|]. simpl. split; [done|by apply Hrem].
Qed.

(** The acyclicity check refuses a graph that contains a cycle. *)
Lemma has_cycle_not_dag g : has_cycle g → is_directed_acyclic_graph g = false.
Proof.
  intros [n Hn]. unfold is_directed_acyclic_graph.
  apply bool_decide_eq_false. intros Hnil.
  assert (n ∈ peel_sources (length (nodes g)) (edges g) (nodes g)) as Hin.
  { apply (peel_sources_keeps (λ x, path g n x ∧ path g x n)); [| |done].
    - intros x [Hnx Hxn]. inversion Hnx as [a b Ha Hb He|a b c Hab Hc He]; subst.
      + exists n. split; [done|done].
      + exists b. split; [|done]. split; [done|].
        eapply path_trans; [|done]. apply path_edge; [|done..].
        by apply (path_nodes _ _ _ Hab).
    - intros x [Hnx _]. by apply (path_nodes _ _ _ Hnx). }
  rewrite Hnil in Hin. by apply elem_of_nil in Hin.
Qed.

(** The check reads the nodes and the edges only. *)
Lemma is_directed_acyclic_graph_ext g1 g2 :
  nodes g1 = nodes g2 → edges g1 = edges g2 →
  is_directed_acyclic_graph g1 = is_directed_acyclic_graph g2.
Proof. unfold is_directed_acyclic_graph. by intros -> ->. Qed.

Lemma has_cycle_subseteq g1 g2 :
  nodes g1 ⊆ nodes g2 → edges g1 ⊆ edges g2 → has_cycle g1 → has_cycle g2.
Proof.
  intros Hn He [n Hp]. exists n.
  assert (∀ a b, path g1 a b → path g2 a b) as Hmono; [|by apply Hmono].
  intros a b Hab. induction Hab as [a b Ha Hb Hab|a b c Hab IH Hc Hbc].
  - apply path_edge; [by apply Hn..|by apply He].
  - eapply path_step; [done|by apply Hn|by apply He].
Qed.

(** ** The orchestrator on a cyclic graph *)

Definition no_sampling : Event → Prop := λ ev, ¬ is_sampling ev.

Lemma validate_causal_dag_cyclic g w :
  has_cycle g →
  validate_causal_dag g w
  = (Raise RuntimeError, mkWorld (rng w) (log w ++ [EvValidateDag g]) (frames w)).
Proof.
  intros Hc%has_cycle_not_dag. unfold validate_causal_dag.
  rewrite (bind_Ok _ _ w tt (mkWorld (rng w) (log w ++ [EvValidateDag g]) (frames w)))
    by done.
  by rewrite Hc.
Qed.

Lemma distribution_change_of_graphs_cyclic causal_model_old causal_model_new
    target_node num_samples shapley_config w :
  has_cycle (graph causal_model_old) →
  distribution_change_of_graphs causal_model_old causal_model_new target_node
    num_samples shapley_config w
  = (Raise RuntimeError,
     mkWorld (rng w) (log w ++ [EvValidateDag (graph causal_model_old)]) (frames w)).
Proof.
  intros Hc. unfold distribution_change_of_graphs.
  by rewrite (bind_Raise _ _ _ _ _ (validate_causal_dag_cyclic _ w Hc)).
Qed.

Lemma clone_mechanisms_structure source ns destination :
  let cloned :=
    foldl (λ dst n,
             match attrs source !! n ≫= CAUSAL_MECHANISM with
             | Some mechanism => set_node_mechanism dst n (mech_clone mechanism)
             | None => dst
             end) destination ns in
  nodes cloned = nodes destination ∧ edges cloned = edges destination.
Proof.
  revert destination. induction ns as [|n ns IH]; intros destination; [done|].
  simpl. destruct (attrs source !! n ≫= CAUSAL_MECHANISM); [|apply IH].
  destruct (IH (set_node_mechanism destination n (mech_clone m))) as [-> ->]. done.
Qed.

Lemma clone_causal_models_inv source destination w g w' :
  clone_causal_models source destination w = (Ok g, w') →
  nodes g = nodes destination ∧ edges g = edges destination.
Proof.
  unfold clone_causal_models.
  intros ([] & w1 & _ & [<- _]%mret_Ok_inv)%bind_Ok_inv.
  apply clone_mechanisms_structure.
Qed.

Lemma node_connected_subgraph_view_pure g target_node w r w' :
  node_connected_subgraph_view g target_node w = (r, w') → w' = w.
Proof.
  unfold node_connected_subgraph_view.
  destruct (decide (target_node ∈ nodes g)); by intros [= _ <-].
Qed.

Lemma clone_old_and_new_inv causal_model target_node w models w' :
  clone_old_and_new causal_model target_node w = (Ok models, w') →
  ∃ view,
    node_connected_subgraph_view (graph causal_model) target_node w = (Ok view, w)
    ∧ nodes (graph models.1) = nodes (graph_factory view)
    ∧ edges (graph models.1) = edges (graph_factory view).
Proof.
  unfold clone_old_and_new.
  intros (view & w1 & Hview & Hrest)%bind_Ok_inv.
  pose proof (node_connected_subgraph_view_pure _ _ _ _ _ Hview) as ->.
  apply bind_Ok_inv in Hrest as (g1 & w2 & Hcopy & Hrest).
  unfold copy_graph in Hcopy.
  apply bind_Ok_inv in Hcopy as ([] & w2' & _ & [<- _]%mret_Ok_inv).
  apply bind_Ok_inv in Hrest as (g2 & w3 & [Hn He]%clone_causal_models_inv & Hrest).
  apply bind_Ok_inv in Hrest as (g3 & w4 & _ & Hrest).
  apply bind_Ok_inv in Hrest as (g4 & w5 & _ & [<- _]%mret_Ok_inv).
  by exists view.
Qed.

Lemma clone_old_and_new_no_sampling causal_model target_node :
  steps (logs no_sampling) (clone_old_and_new causal_model target_node).
Proof.
  unfold clone_old_and_new, node_connected_subgraph_view, copy_graph,
    clone_causal_models.
  steps_tac.
Qed.

Lemma select_columns_no_sampling data ns :
  steps (logs no_sampling) (select_columns data ns).
Proof. unfold select_columns. steps_tac. Qed.

Lemma refitter_no_sampling causal_model_old causal_model_new old_data new_data α fdr :
  steps (logs no_sampling)
    (_fit_accounting_for_mechanism_change causal_model_old causal_model_new
       old_data new_data α fdr).
Proof.
  unfold _fit_accounting_for_mechanism_change, _check_significant_mechanism_change,
    p_value_of_node, significant_p_values, column, columns, column_of,
    frame_append, fit_target.
  steps_tac.
Qed.

Lemma logs_snoc P w ev :
  P ev → logs P w (mkWorld (rng w) (log w ++ [ev]) (frames w)).
Proof. intros HP. exists [ev]. split; [done|]. by constructor. Qed.

(** The run of the orchestrator once the refitter has returned, on a graph
    with a cycle. *)
Lemma distribution_change_cyclic_run causal_model old_data new_data target_node
    num_samples α fdr return_additional_info shapley_config
    w view models w1 old_columns w2 new_columns w3 fitted w4 :
  (∀ g, nodes g ⊆ nodes (graph_factory g) ∧ edges g ⊆ edges (graph_factory g)) →
  node_connected_subgraph_view (graph causal_model) target_node w = (Ok view, w) →
  has_cycle view →
  clone_old_and_new causal_model target_node w = (Ok models, w1) →
  select_columns old_data (nodes (graph models.1)) w1 = (Ok old_columns, w2) →
  select_columns new_data (nodes (graph models.2)) w2 = (Ok new_columns, w3) →
  _fit_accounting_for_mechanism_change models.1 models.2 old_columns new_columns
    α fdr w3 = (Ok fitted, w4) →
  has_cycle (graph fitted.2.1)
  ∧ distribution_change causal_model old_data new_data target_node num_samples
      α fdr return_additional_info shapley_config w
    = (Raise RuntimeError,
       mkWorld (rng w4) (log w4 ++ [EvValidateDag (graph fitted.2.1)]) (frames w4)).
Proof.
  intros Hfac Hview Hcyc Hclone Hold Hnew Hfit.
  assert (has_cycle (graph fitted.2.1)) as Hcyc'.
  { destruct (clone_old_and_new_inv _ _ _ _ _ Hclone) as (view' & Hview' & Hn & He).
    rewrite Hview in Hview'. injection Hview' as <-.
    destruct fitted as [flags fitted_models].
    destruct (refitter_inv _ _ _ _ _ _ _ _ _ _ Hfit)
      as (old_rows & new_rows & tests & wt
          & _ & _ & _ & _ & _ & _ & _ & _ & _ & Hn' & He' & _).
    simpl. eapply has_cycle_subseteq; [| |exact Hcyc].
    - rewrite Hn', Hn. apply Hfac.
    - rewrite He', He. apply Hfac. }
  split; [done|].
  unfold distribution_change.
  rewrite (bind_Ok _ _ _ _ _ Hclone). cbv zeta.
  rewrite (bind_Ok _ _ _ _ _ Hold), (bind_Ok _ _ _ _ _ Hnew), (bind_Ok _ _ _ _ _ Hfit).
  cbv zeta.
  by rewrite (bind_Raise _ _ _ _ _
    (distribution_change_of_graphs_cyclic _ _ _ _ _ w4 Hcyc')).
Qed.

(** C4 (amended). On a reference model whose target-restricted graph
    contains a cycle (and with a graph factory that copies nodes and edges):
    [distribution_change_of_graphs] raises the validation error at once, the
    validation being its only trace entry; [distribution_change] never
    returns attributions and never samples or evaluates the Shapley game;
    but its validation error comes after the change detection and the
    refitting: once the refitter has returned, having fitted every node's
    mechanism in both models, the call raises the validation error, the
    validation being the last trace entry. *)
Theorem distribution_change_cyclic_graph (causal_model : ProbabilisticCausalModel)
    (old_data new_data : nat) (target_node : node) (num_samples : nat) (α : Q)
    (fdr : option string) (return_additional_info : bool)
    (shapley_config : option ShapleyConfig) (w : World) (view : DirectedGraph) :
  (∀ g, nodes g ⊆ nodes (graph_factory g) ∧ edges g ⊆ edges (graph_factory g)) →
  node_connected_subgraph_view (graph causal_model) target_node w = (Ok view, w) →
  has_cycle view →
  (∀ causal_model_old causal_model_new w0,
     has_cycle (graph causal_model_old) →
     distribution_change_of_graphs causal_model_old causal_model_new target_node
       num_samples shapley_config w0
     = (Raise RuntimeError,
        mkWorld (rng w0) (log w0 ++ [EvValidateDag (graph causal_model_old)])
          (frames w0)))
  ∧ (∀ r w',
       distribution_change causal_model old_data new_data target_node num_samples
         α fdr return_additional_info shapley_config w = (r, w') →
       (∃ e, r = Raise e) ∧ logs no_sampling w w')
  ∧ (∀ models w1 old_columns w2 new_columns w3 fitted w4,
       clone_old_and_new causal_model target_node w = (Ok models, w1) →
       select_columns old_data (nodes (graph models.1)) w1 = (Ok old_columns, w2) →
       select_columns new_data (nodes (graph models.2)) w2 = (Ok new_columns, w3) →
       _fit_accounting_for_mechanism_change models.1 models.2 old_columns
         new_columns α fdr w3 = (Ok fitted, w4) →
       distribution_change causal_model old_data new_data target_node num_samples
         α fdr return_additional_info shapley_config w
       = (Raise RuntimeError,
          mkWorld (rng w4) (log w4 ++ [EvValidateDag (graph fitted.2.1)]) (frames w4))
       ∧ ∃ old_rows new_rows tests,
           Forall (λ ev, ¬ is_fit ev) tests
           ∧ log w4 = log w3 ++ tests
                      ++ (nodes (graph models.2)
                            ≫= fits_of_node fitted.1 old_rows new_rows
                                 (old_rows ++ new_rows))
           ∧ ∀ n, n ∈ nodes (graph models.2) → is_Some (fitted.1 !! n)).
Proof.
  intros Hfac Hview Hcyc. split_and!.
  - intros mo mn w0. apply distribution_change_of_graphs_cyclic.
  - intros r w' Hrun.
    destruct (clone_old_and_new causal_model target_node w) as [[models|e] w1] eqn:Hclone.
    2:{ unfold distribution_change in Hrun.
        rewrite (bind_Raise _ _ _ _ _ Hclone) in Hrun. injection Hrun as <- <-.
        split; [by eexists|]. by eapply clone_old_and_new_no_sampling. }
    pose proof (clone_old_and_new_no_sampling _ _ _ _ _ Hclone) as L1.
    destruct (select_columns old_data (nodes (graph models.1)) w1)
      as [[oc|e] w2] eqn:Hold.
    2:{ unfold distribution_change in Hrun.
        rewrite (bind_Ok _ _ _ _ _ Hclone) in Hrun. cbv zeta in Hrun.
        rewrite (bind_Raise _ _ _ _ _ Hold) in Hrun. injection Hrun as <- <-.
        split; [by eexists|]. etrans; [done|]. by eapply select_columns_no_sampling. }
    pose proof (select_columns_no_sampling _ _ _ _ _ Hold) as L2.
    destruct (select_columns new_data (nodes (graph models.2)) w2)
      as [[nc|e] w3] eqn:Hnew.
    2:{ unfold distribution_change in Hrun.
        rewrite (bind_Ok _ _ _ _ _ Hclone) in Hrun. cbv zeta in Hrun.
        rewrite (bind_Ok _ _ _ _ _ Hold), (bind_Raise _ _ _ _ _ Hnew) in Hrun.
        injection Hrun as <- <-.
        split; [by eexists|]. etrans; [done|]. etrans; [done|].
        by eapply select_columns_no_sampling. }
    pose proof (select_columns_no_sampling _ _ _ _ _ Hnew) as L3.
    destruct (_fit_accounting_for_mechanism_change models.1 models.2 oc nc α fdr w3)
      as [[fitted|e] w4] eqn:Hfit.
    2:{ unfold distribution_change in Hrun.
        rewrite (bind_Ok _ _ _ _ _ Hclone) in Hrun. cbv zeta in Hrun.
        rewrite (bind_Ok _ _ _ _ _ Hold), (bind_Ok _ _ _ _ _ Hnew),
          (bind_Raise _ _ _ _ _ Hfit) in Hrun.
        injection Hrun as <- <-.
        split; [by eexists|]. etrans; [done|]. etrans; [done|]. etrans; [done|].
        by eapply refitter_no_sampling. }
    pose proof (refitter_no_sampling _ _ _ _ _ _ _ _ _ Hfit) as L4.
    destruct (distribution_change_cyclic_run causal_model old_data new_data
                target_node num_samples α fdr return_additional_info shapley_config
                _ _ _ _ _ _ _ _ _ _ Hfac Hview Hcyc Hclone Hold Hnew Hfit)
      as [_ Hraise].
    rewrite Hraise in Hrun. injection Hrun as <- <-.
    split; [by eexists|].
    etrans; [done|]. etrans; [done|]. etrans; [done|]. etrans; [done|].
    apply logs_snoc. unfold no_sampling. simpl. tauto.
  - intros models w1 oc w2 nc w3 fitted w4 Hclone Hold Hnew Hfit.
    split.
    + by eapply distribution_change_cyclic_run.
    + destruct fitted as [flags fitted_models].
      destruct (refitter_inv _ _ _ _ _ _ _ _ _ _ Hfit)
        as (old_rows & new_rows & tests & wt & _ & _ & Htests & Hlog & Hflags & _).
      by exists old_rows, new_rows, tests.
Qed.

(** * Further properties of the module *)

(** ** The Monte-Carlo evaluation: budget and trace *)






(** ** The anomaly-score estimator as a whole *)




(** ** The change detection *)












(** ** The mechanism-change test with parents *)


(** ** The hybrid model and the value function *)







Section HybridEntries.
Context `{node_le_total_order : !TotalOrder (node_le (node:=node))}.


End HybridEntries.






(** ** The orchestrator *)







(** ** The refitter and the store of tables *)

(** The store of tables only grows: the tables it held are still there. *)
Definition store_grows : relation World :=
  λ w w', frames w `prefix_of` frames w'.

#[local] Instance store_grows_preorder : PreOrder store_grows.
Proof.
  split.
  - intros w. unfold store_grows. done.
  - intros w1 w2 w3. unfold store_grows. intros H12 H23. by etrans.
Qed.





(** ** The Monte-Carlo loop on totals that are zero or not finite *)







(** ** Missing flags and missing Shapley values *)






End Gcm.

(** * A concrete scenario

    Nodes are natural numbers, cells are integers, a mechanism is a number
    that records how it was fitted, and the random state is a counter that
    every collaborator call advances. *)

#[global] Instance nat_node_order : NodeOrder nat := le.

#[global] Instance nat_le_total_order : TotalOrder (node_le (node:=nat)).
Proof.
  unfold node_le, nat_node_order. split; [apply _|].
  intros x y. unfold strict.
  destruct (lt_eq_lt_dec x y) as [[?|?]|?]; [left|right; left|right; right]; lia.
Qed.

(** Cloning keeps the number of a mechanism, fitting adds the number of rows
    it is fitted on, and the samples of a mechanism are the parent rows
    shifted by its number. *)
#[global] Instance ex_mechanisms
    : ConditionalStochasticModel (Val:=Z) (Mech:=nat) (Rng:=nat) := {|
  mech_clone m := m;
  mech_fit m X Y := λ g, (Ok (m + length X), S g);
  mech_draw_samples m parents := λ g,
    (Ok (Arr2 ((λ row : list Z, (λ x, (x + Z.of_nat m)%Z) <$> row) <$> parents)),
     S g)
|}.

(** The subset vector of the coalition that holds player [i] only. *)
Definition unit_subset (n i : nat) : list Z :=
  (λ j, if decide (j = i) then 1%Z else 0%Z) <$> seq 0 n.

Definition cells (arr : ndarray (Val:=Z)) : list Z :=
  match arr with Arr1 xs => xs | Arr2 rows => concat rows end.

(** The distance of two sample arrays: the absolute difference of the sums
    of their cells. *)
Definition ex_distance (a b : ndarray (Val:=Z)) : float :=
  Finite (inject_Z (Z.abs (foldr Z.add 0%Z (cells b) - foldr Z.add 0%Z (cells a)))).

(** A divergence that is infinite as soon as [b] holds a value [a] does not
    hold, as the Kullback-Leibler divergence of two empirical distributions
    is, and 0 otherwise. *)
Definition ex_divergence (a b : ndarray (Val:=Z)) : float :=
  if forallb (λ y, bool_decide (y ∈ cells a)) (cells b) then Finite 0 else PosInf.

(** The number of the mechanism of a node, 0 if it has none. *)
Definition ex_mechanism_number
    (causal_model : ProbabilisticCausalModel (node:=nat) (Mech:=nat)) (n : nat) : nat :=
  default 0 (mechanism_of (graph causal_model) n).

(** The collaborators of the scenario, for a given difference function.  The
    graph factory copies nodes and edges and enumerates the nodes in the
    opposite order; the Shapley estimator evaluates the singleton
    coalitions; the p-value of the k-th test is k/10; fitting the mechanism
    numbered [m] of a node on a table of [r] rows gives the mechanism
    numbered [100 m + r]; every cell of a joint sample of a model is the sum
    of the numbers of its mechanisms, the mechanism of node [k] weighted by
    [k + 1]. *)
Definition ex_collaborators_with
    (difference : ndarray (Val:=Z) → ndarray (Val:=Z) → float)
    : Collaborators (node:=nat) (Val:=Z) (Mech:=nat) (Rng:=nat)
        (ShapleyConfig:=unit) := {|
  choice a size := λ g,
    if decide (size ≤ a) then (Ok (seq 0 size), S g) else (Raise ValueError, g);
  multipletests ps α method := λ g, (Ok ((λ _, false) <$> ps), g);
  independence_test joint labels parents := λ g, (Ok (1 # 2)%Q, S g);
  mechanism_change_func x y po pn := λ g, (Ok (Z.of_nat g # 10)%Q, S g);
  difference_estimation_func a b := λ g, (Ok (difference a b), S g);
  graph_factory g := mkDirectedGraph (reverse (nodes g)) (edges g) (attrs g);
  fit_causal_model_of_target cm n df := λ g,
    (Ok (100 * ex_mechanism_number cm n + length df), S g);
  draw_samples cm num := λ g,
    let cell :=
      foldr Z.add 0%Z
        ((λ k, Z.of_nat ((k + 1) * ex_mechanism_number cm k)) <$> nodes (graph cm)) in
    (Ok (replicate num (list_to_map ((λ n, (n, cell)) <$> nodes (graph cm)))), S g);
  estimate_shapley_values f n cfg := mapM (λ i, f (unit_subset n i)) (seq 0 n)
|}.

#[global] Instance ex_collaborators
    : Collaborators (node:=nat) (Val:=Z) (Mech:=nat) (Rng:=nat)
        (ShapleyConfig:=unit) :=
  ex_collaborators_with ex_distance.

(** The same collaborators with the divergence for difference function. *)
Definition ex_divergent
    : Collaborators (node:=nat) (Val:=Z) (Mech:=nat) (Rng:=nat)
        (ShapleyConfig:=unit) :=
  ex_collaborators_with ex_divergence.

Definition ex_attrs (a b c : nat) : gmap nat (NodeAttrs (node:=nat) (Mech:=nat)) :=
  list_to_map [(0, mkNodeAttrs (Some a) None); (1, mkNodeAttrs (Some b) None);
               (2, mkNodeAttrs (Some c) None)].

(** The chain 2 -> 1 -> 0, its nodes enumerated out of order. *)
Definition ex_chain : DirectedGraph (node:=nat) (Mech:=nat) :=
  mkDirectedGraph [2; 0; 1] [(2, 1); (1, 0)] (ex_attrs 10 11 12).

(** The same chain with the new-fitted mechanisms, enumerated in yet
    another order. *)
Definition ex_chain_new : DirectedGraph (node:=nat) (Mech:=nat) :=
  mkDirectedGraph [1; 2; 0] [(2, 1); (1, 0)] (ex_attrs 20 21 22).

(** The two-node cycle 0 -> 1 -> 0. *)
Definition ex_cyclic : DirectedGraph (node:=nat) (Mech:=nat) :=
  mkDirectedGraph [0; 1] [(0, 1); (1, 0)]
    (list_to_map [(0, mkNodeAttrs (Some 10) None); (1, mkNodeAttrs (Some 11) None)]).

Definition ex_row (a b c : Z) : gmap nat Z := list_to_map [(0, a); (1, b); (2, c)].

Definition ex_old_data : DataFrame (node:=nat) (Val:=Z) :=
  [ex_row 1 2 3; ex_row 4 5 6].

Definition ex_new_data : DataFrame (node:=nat) (Val:=Z) :=
  [ex_row 7 8 9; ex_row 1 1 1; ex_row 2 2 2].

(** The initial world: table 0 is the old data, table 1 the new data. *)
Definition ex_world : World (node:=nat) (Val:=Z) (Mech:=nat) (Rng:=nat) :=
  mkWorld 0 [] [ex_old_data; ex_new_data].

(** The claim of the specification on the orchestrator, as stated: the run
    raises, and no trace entry is a fit. *)
Definition raises_before_fitting {A}
    (run : outcome A * World (node:=nat) (Val:=Z) (Mech:=nat) (Rng:=nat)) : Prop :=
  (∃ e, run.1 = Raise e) ∧ Forall (λ ev, ¬ is_fit ev) (log run.2).

Lemma ex_choice_contract : choice_contract (collaborators:=ex_collaborators).
Proof.
  intros a size g. simpl. destruct (decide (size ≤ a)); [|lia].
  split_and!; [apply length_seq|apply NoDup_seq|].
  intros i [_ Hi]%elem_of_seq. simpl in Hi. lia.
Qed.

Lemma ex_factory_copies
    (g : DirectedGraph (node:=nat) (Mech:=nat)) :
  nodes g ⊆ nodes (graph_factory g) ∧ edges g ⊆ edges (graph_factory g).
Proof. simpl. split; [|done]. intros x. by rewrite elem_of_reverse. Qed.

Lemma ex_cyclic_has_cycle : has_cycle ex_cyclic.
Proof.
  exists 0. apply (path_step _ 0 1 0).
  - apply path_edge; simpl; set_solver.
  - simpl; set_solver.
  - simpl; set_solver.
Qed.

(** ** The theorems at work on the scenario *)

(** C7 on the chain: the tests give the p-values 0, 1/10, 2/10 in the order
    the graph enumerates its nodes (2, 0, 1); at level 15/100 the first two
    are significant. *)
Lemma corrector_without_fdr_method_witness :
  ∃ flags w1,
    _check_significant_mechanism_change ex_chain 0 1 (15 # 100)%Q None ex_world
    = (Ok flags, w1)
    ∧ ∃ d2 d0 d1,
        flags !! 2 = Some d2 ∧ flags !! 0 = Some d0 ∧ flags !! 1 = Some d1
        ∧ (d2 = true ↔ (0 # 10 <= 15 # 100)%Q)
        ∧ (d0 = true ↔ (1 # 10 <= 15 # 100)%Q)
        ∧ (d1 = true ↔ (2 # 10 <= 15 # 100)%Q).
Proof.
  eassert (mapM (p_value_of_node ex_chain 0 1) (nodes ex_chain) ex_world
           = (Ok _, _)) as Hps by (vm_compute; reflexivity).
  assert (NoDup (nodes ex_chain)) as Hnd by (by apply (bool_decide_unpack _)).
  destruct (corrector_without_fdr_method ex_chain 0 1 (15 # 100)%Q _ _ _ Hps Hnd)
    as (_ & flags & Hrun & Hflags & _).
  exists flags. eexists. split; [exact Hrun|].
  destruct (Hflags 0 2 (0 # 10)%Q eq_refl eq_refl) as (d2 & ? & ?).
  destruct (Hflags 1 0 (1 # 10)%Q eq_refl eq_refl) as (d0 & ? & ?).
  destruct (Hflags 2 1 (2 # 10)%Q eq_refl eq_refl) as (d1 & ? & ?).
  by exists d2, d0, d1.
Defined.

(** The pooled parent rows of the Monte-Carlo examples. *)
Definition ex_rows : list (list Z) := [[1%Z]; [2%Z]; [3%Z]].

(** C2 on three rows of contribution 6 each, with threshold 1/100: a score
    is returned, and it is the running total of the processed rows divided
    by their number. *)
Lemma monte_carlo_mean_early_stopping_witness :
  ∃ score w' (cs : list float),
    monte_carlo_mean 10 12 3 (Finite (1 # 100)) ex_rows ex_world = (Ok score, w')
    ∧ 1 ≤ length cs ≤ length ex_rows
    ∧ score = fdiv (running_total (Finite 0) cs) (float_of_nat (length cs)).
Proof.
  eassert (monte_carlo_mean 10 12 3 (Finite (1 # 100)) ex_rows ex_world = (Ok _, _))
    as Hrun by (vm_compute; reflexivity).
  destruct (monte_carlo_mean_early_stopping 10 12 3 (Finite (1 # 100)) ex_rows
              ex_world _ _ Hrun) as (cs & Hlen & _ & Hscore & _).
  eexists _, _, cs. split; [exact Hrun|]. by split.
Defined.

(** The run of the loop on the three rows, from the second example on. *)
Example ex_loop_value :
  (monte_carlo_loop 10 12 3 (Finite (1 # 100)) ex_rows (Finite 0) 0 ex_world).1
  = Ok (Finite 12, 2).
Proof. vm_compute. reflexivity. Qed.

(** C3 (amended) on the same rows: both contributions are 6, the loop stops
    after the second row although a third is left, and the score is
    (6 + 6) / 2. *)
Lemma monte_carlo_mean_stops_after_two_rows_witness :
  ∃ w2 score,
    monte_carlo_loop 10 12 3 (Finite (1 # 100)) ex_rows (Finite 0) 0 ex_world
    = (Ok (fadd (fadd (Finite 0) (Finite 6)) (Finite 6), 2), w2)
    ∧ monte_carlo_mean 10 12 3 (Finite (1 # 100)) ex_rows ex_world = (Ok score, w2)
    ∧ same_float score (fdiv (fadd (Finite 6) (Finite 6)) (Finite 2)).
Proof.
  eassert (row_contribution 10 12 3 [1%Z] ex_world = (Ok (Finite 6), _)) as H1
    by (vm_compute; reflexivity).
  eassert (row_contribution 10 12 3 [2%Z] _ = (Ok (Finite 6), _)) as H2
    by (vm_compute; reflexivity).
  destruct (monte_carlo_mean_stops_after_two_rows 10 12 3 (Finite (1 # 100))
              [1%Z] [2%Z] [[3%Z]] (Finite 6) (Finite 6) ex_world _ _ H1 H2)
    as (Hloop & score & Hmean & Hscore); [exact I|reflexivity..|].
  eexists _, score. split; [exact Hloop|]. by split.
Defined.

(** C3, as stated, fails: with the divergence for difference function the
    first two rows contribute +inf each -- a strictly positive and a
    nonnegative contribution -- and the threshold 1/100 is nonnegative, yet
    the loop does not stop after two rows: it processes all three. *)
Lemma monte_carlo_mean_infinite_contribution_counterexample :
  ∃ w1 w2,
    row_contribution (collaborators:=ex_divergent) 10 12 3 [1%Z] ex_world
    = (Ok PosInf, w1)
    ∧ row_contribution (collaborators:=ex_divergent) 10 12 3 [2%Z] w1
      = (Ok PosInf, w2)
    ∧ flt (Finite 0) PosInf = true
    ∧ fle (Finite 0) PosInf = true
    ∧ fle (Finite 0) (Finite (1 # 100)) = true
    ∧ (monte_carlo_loop (collaborators:=ex_divergent) 10 12 3 (Finite (1 # 100))
         ex_rows (Finite 0) 0 ex_world).1 = Ok (PosInf, 3)
    ∧ ¬ ∃ result w',
          monte_carlo_loop (collaborators:=ex_divergent) 10 12 3 (Finite (1 # 100))
            ex_rows (Finite 0) 0 ex_world = (Ok (result, 2), w').
Proof.
  eexists _, _.
  split; [vm_compute; reflexivity|].
  split; [vm_compute; reflexivity|].
  split; [reflexivity|]. split; [reflexivity|]. split; [reflexivity|].
  split; [vm_compute; reflexivity|].
  intros (result & w' & Hrun).
  apply (f_equal fst) in Hrun. vm_compute in Hrun. discriminate Hrun.
Qed.

(** The runs the remaining examples are about. *)
Definition ex_refit :=
  _fit_accounting_for_mechanism_change (mkPCM ex_chain) (mkPCM ex_chain_new)
    0 1 (5 # 100)%Q None ex_world.

Definition ex_scores :=
  estimate_distribution_change_scores (mkPCM ex_chain) 0 1 10 3 (Finite (1 # 100))
    (15 # 100)%Q None ex_world.

Definition ex_cyclic_run :=
  distribution_change (mkPCM ex_cyclic) 0 1 0 5 (5 # 100)%Q None false None
    ex_world.

(** The flags and the two models the refitter returns on the chain. *)
Definition ex_refit_flags : gmap nat bool :=
  (ok_value (∅, (mkPCM ex_chain, mkPCM ex_chain)) ex_refit.1).1.

Definition ex_refit_models :=
  (ok_value (∅, (mkPCM ex_chain, mkPCM ex_chain)) ex_refit.1).2.

(** C5 on the chain (old table of 2 rows, new table of 3): the refitter
    returns, its fits are those of the flags, in the trace and in the models
    returned, the two input tables are untouched, and the pooled table has
    2 + 3 rows. *)
Lemma refitter_uses_regime_data_witness :
  ∃ tests (w1 : World (node:=nat) (Val:=Z) (Mech:=nat) (Rng:=nat)),
    log ex_refit.2
    = log ex_world ++ tests
      ++ (nodes ex_chain_new
            ≫= fits_of_node ex_refit_flags ex_old_data ex_new_data
                 (ex_old_data ++ ex_new_data))
    ∧ Forall (λ ev, ¬ is_fit ev) tests
    ∧ frames ex_refit.2 = [ex_old_data; ex_new_data; ex_old_data ++ ex_new_data]
    ∧ length (ex_old_data ++ ex_new_data) = 2 + 3
    ∧ refits ex_refit_flags ex_old_data ex_new_data (ex_old_data ++ ex_new_data)
        (nodes ex_chain_new) (mkPCM ex_chain, mkPCM ex_chain_new) (rng w1)
        ex_refit_models (rng ex_refit.2).
Proof.
  assert (ex_refit = (Ok (ex_refit_flags, ex_refit_models), ex_refit.2)) as Hrun
    by (vm_compute; reflexivity).
  pose proof (refitter_uses_regime_data _ _ _ _ _ _ _ _ _ _ Hrun) as Hfits.
  destruct Hfits
    as (old_rows & new_rows & tests & w1
        & Ho & Hn & Htests & Hlog & _ & Hlen & Hfr & _ & _ & _ & Hrefits).
  injection Ho as <-. injection Hn as <-.
  exists tests, w1.
  split; [exact Hlog|]. split; [exact Htests|]. split; [exact Hfr|].
  split; [reflexivity|exact Hrefits].
Defined.

(** The refit of the scenario, evaluated: node 2 is the only node flagged
    as changed; its mechanism in the old model (12) is fitted on the 2 old
    rows and its mechanism in the new model (22) on the 3 new rows; the
    mechanisms of nodes 0 and 1 are fitted on the 5 pooled rows in both
    models. *)
Example ex_refit_value :
  map_to_list ex_refit_flags = [(2, true); (1, false); (0, false)]
  ∧ (λ n, (mechanism_of (graph ex_refit_models.1) n,
           mechanism_of (graph ex_refit_models.2) n)) <$> [0; 1; 2]
    = [(Some 1005, Some 2005); (Some 1105, Some 2105); (Some 1202, Some 2203)].
Proof. split; vm_compute; reflexivity. Qed.

(** C9 on the chain: the run returns; node 2, the first node the graph
    enumerates, has a score and a flag, and its score is 0 if it is flagged
    as unchanged. *)
Lemma anomaly_scores_by_case_witness :
  ∃ (flags : gmap nat bool) changed score,
    ok_value ∅ ex_scores.1 !! 2 = Some score
    ∧ flags !! 2 = Some changed
    ∧ (changed = false → score = Finite 0).
Proof.
  assert (ex_scores = (Ok (ok_value ∅ ex_scores.1), ex_scores.2)) as Hrun
    by (vm_compute; reflexivity).
  assert (NoDup (nodes (graph (mkPCM ex_chain)))) as Hnd
    by (by apply (bool_decide_unpack _)).
  pose proof (anomaly_scores_by_case _ _ _ _ _ _ _ _ _ _ _ Hnd Hrun) as Hcases.
  destruct Hcases as (flags & w0 & w1 & _ & _ & Hchain).
  apply chain_cons_inv in Hchain as (wb & Hstep & _).
  destruct Hstep as (changed & score & evs & Hflag & Hres & _ & _ & Hunchanged & _).
  exists flags, changed, score. split; [exact Hres|]. split; [exact Hflag|].
  intros Hc. by destruct (Hunchanged Hc).
Defined.

(** The scores of the scenario, evaluated: the changed root 2 scores the one
    call of the difference function on its two columns, node 1 is unchanged
    and scores 0, node 0 scores the mean of two contributions; the trace
    after the three mechanism-change tests holds the difference call of
    node 2, nothing for node 1, and the Monte-Carlo evaluation of node 0. *)
Example ex_scores_value :
  map_to_list (ok_value ∅ ex_scores.1)
  = [(2, Finite 3); (1, Finite 0); (0, Finite (18 # 2))]
  ∧ drop 4 (log ex_scores.2)
    = [EvDifference (Arr1 [3; 6]%Z) (Arr1 [9; 1; 2]%Z);
       EvMechClone 10;
       EvMechFit 10 [[8]; [1]; [2]]%Z [[7]; [1]; [2]]%Z;
       EvMechDraw 10 [[2]; [2]; [2]]%Z;
       EvMechDraw 13 [[2]; [2]; [2]]%Z;
       EvDifference (Arr2 [[12]; [12]; [12]]%Z) (Arr2 [[15]; [15]; [15]]%Z);
       EvMechDraw 10 [[5]; [5]; [5]]%Z;
       EvMechDraw 13 [[5]; [5]; [5]]%Z;
       EvDifference (Arr2 [[15]; [15]; [15]]%Z) (Arr2 [[18]; [18]; [18]]%Z)].
Proof. split; vm_compute; reflexivity. Qed.

(** C10 on empty parent arrays: the division by the number of processed
    rows raises. *)
Lemma score_undefined_without_rows_witness :
  ∃ w',
    _estimate_distribution_change_score (Arr2 []) (Arr2 []) (Arr1 []) 10 5 3
      (Finite (1 # 100)) ex_world = (Raise ZeroDivisionError, w')
    ∧ log w' = [EvMechClone 10; EvMechFit 10 [] []].
Proof.
  destruct (score_undefined_without_rows (Arr2 []) (Arr2 []) (Arr1 []) 10 5 3
              (Finite (1 # 100)) ex_world ex_choice_contract) as [_ Hraise].
  destruct (Hraise 10 1) as (w' & Hrun & Hlog);
    [by left|lia|reflexivity|].
  exists w'. by split.
Defined.

(** C8 (amended) on an old array of 2 and a new array of 3 cells: the test
    receives 2 + 2 rows and the labels "1.0", "1.0", "-1.0", "-1.0". *)
Lemma mechanism_change_test_balanced_labels_witness :
  ∃ rows_old rows_new parents,
    subsample_of (Arr1 [1%Z; 2%Z]) 2 rows_old
    ∧ subsample_of (Arr1 [3%Z; 4%Z; 5%Z]) 2 rows_new
    ∧ log (mechanism_change_test (Arr1 [1%Z; 2%Z]) (Arr1 [3%Z; 4%Z; 5%Z])
             None None ex_world).2
      = [EvIndependenceTest (rows_old ++ rows_new)
           ["1.0"; "1.0"; "-1.0"; "-1.0"]%string parents].
Proof.
  destruct (mechanism_change_test_balanced_labels (Arr1 [1%Z; 2%Z])
              (Arr1 [3%Z; 4%Z; 5%Z]) None None ex_world ex_choice_contract I)
    as (rows_old & rows_new & parents & g & Hold & Hnew & _ & Hrun).
  exists rows_old, rows_new, parents.
  split; [exact Hold|]. split; [exact Hnew|]. by rewrite Hrun.
Defined.

(** C8, as stated, fails: on the same arrays the labels the independence
    test receives are not "1", "1", "-1", "-1". *)
Lemma mechanism_change_test_labels_counterexample :
  ¬ ∃ joint_target_samples joint_parent_data,
      log (mechanism_change_test (Arr1 [1%Z; 2%Z]) (Arr1 [3%Z; 4%Z; 5%Z]) None None
             ex_world).2
      = [EvIndependenceTest joint_target_samples (origin_labels 2 "1" "-1")
           joint_parent_data].
Proof.
  intros (joint & parents & Hlog). vm_compute in Hlog. discriminate Hlog.
Qed.

(** The value function of the chain, for the target node 0 and 5 samples,
    against old target samples of 68 each. *)
Definition ex_value_function :=
  attribution_set_function (mkPCM ex_chain) [10; 11; 12] [20; 21; 22]
    (Arr1 (replicate 5 68%Z)) 0 5.

(** C1 on the chain: the old graph enumerates its nodes as 2, 0, 1, the
    new one as 1, 2, 0 and the factory reverses the order; for the subset
    [1, 0, 0] the hybrid model still gives node 0, the first sorted node,
    its new mechanism, and node 1 its old one; and the value of the subset
    is the difference function applied to the samples drawn from that
    hybrid model. *)
Lemma shapley_players_follow_sorted_nodes_witness :
  ∃ hybrid w1,
    hybrid_model (mkPCM ex_chain) [10; 11; 12] [20; 21; 22] [1; 0; 0]%Z ex_world
    = (Ok hybrid, w1)
    ∧ mechanism_of (graph hybrid) 0 = mechanism_of ex_chain_new 0
    ∧ mechanism_of (graph hybrid) 1 = mechanism_of ex_chain 1
    ∧ ex_value_function [1; 0; 0]%Z ex_world
      = (target_samples_new ← draw_target_samples hybrid 5 0;
         call (EvDifference (Arr1 (replicate 5 68%Z)) target_samples_new)
              (difference_estimation_func (Arr1 (replicate 5 68%Z))
                 target_samples_new)) w1.
Proof.
  assert (NoDup (nodes (graph (mkPCM ex_chain)))) as Hnd
    by (by apply (bool_decide_unpack _)).
  assert (nodes (graph_factory (graph (mkPCM ex_chain)))
          ≡ₚ nodes (graph (mkPCM ex_chain))) as Hcopy
    by apply reverse_Permutation.
  assert (nodes (graph (mkPCM ex_chain_new)) ≡ₚ nodes (graph (mkPCM ex_chain)))
    as Hnew.
  { apply NoDup_Permutation; [by apply (bool_decide_unpack _)..|].
    intros x. simpl. rewrite !elem_of_cons. tauto. }
  destruct (shapley_players_follow_sorted_nodes (mkPCM ex_chain) (mkPCM ex_chain_new)
              0 5 None Hnd Hcopy Hnew) as [Hhybrid _].
  destruct (Hhybrid [10; 11; 12] [20; 21; 22] (Arr1 (replicate 5 68%Z))
              [1; 0; 0]%Z ex_world)
    as (hybrid & Hrun & Hmech & Hvalue & _);
    [vm_compute; reflexivity..|by intros [? _]%Forall_cons|].
  exists hybrid. eexists. split; [exact Hrun|]. split; [|split; [|exact Hvalue]].
  - assert (sorted (nodes (graph (mkPCM ex_chain))) !! 0 = Some 0) as Hp
      by (vm_compute; reflexivity).
    by destruct (proj1 (Hmech 0 0 Hp) eq_refl).
  - assert (sorted (nodes (graph (mkPCM ex_chain))) !! 1 = Some 1) as Hp
      by (vm_compute; reflexivity).
    by destruct (proj2 (Hmech 1 1 Hp) eq_refl).
Defined.

(** The value function and the attributions of the scenario, evaluated.  A
    cell of a sample of the old model is 1*10 + 2*11 + 3*12 = 68; the
    subset [1, 0, 0] replaces the mechanism of node 0 by 20 and moves each
    of the 5 cells by 10, the subset [0, 0, 1] replaces the mechanism of
    node 2 by 22 and moves each cell by 30; the driver attributes 50 to
    node 0, 100 to node 1 and 150 to node 2. *)
Example ex_attributions_value :
  (ex_value_function [1; 0; 0]%Z ex_world).1 = Ok (Finite 50)
  ∧ (ex_value_function [0; 0; 1]%Z ex_world).1 = Ok (Finite 150)
  ∧ map_to_list
      (ok_value ∅
         (__estimate_marginal_distribution_change (mkPCM ex_chain)
            (mkPCM ex_chain_new) 0 5 None ex_world).1)
    = [(2, Finite 150); (1, Finite 100); (0, Finite 50)].
Proof. split_and!; vm_compute; reflexivity. Qed.

(** C4 (amended) on the two-node cycle: the orchestrator raises, and
    nothing is sampled. *)
Lemma distribution_change_cyclic_graph_witness :
  (∃ e, ex_cyclic_run.1 = Raise e) ∧ logs no_sampling ex_world ex_cyclic_run.2.
Proof.
  assert (node_connected_subgraph_view (graph (mkPCM ex_cyclic)) 0 ex_world
          = (Ok ex_cyclic, ex_world)) as Hview by (vm_compute; reflexivity).
  destruct (distribution_change_cyclic_graph (mkPCM ex_cyclic) 0 1 0 5 (5 # 100)%Q
              None false None ex_world ex_cyclic ex_factory_copies Hview
              ex_cyclic_has_cycle) as (_ & Hraises & _).
  apply Hraises. apply surjective_pairing.
Defined.

(** C4, as stated, fails: on the two-node cycle the orchestrator raises the
    validation error, but only after it has fitted mechanisms. *)
Lemma distribution_change_cyclic_counterexample :
  has_cycle ex_cyclic
  ∧ node_connected_subgraph_view (graph (mkPCM ex_cyclic)) 0 ex_world
    = (Ok ex_cyclic, ex_world)
  ∧ ex_cyclic_run.1 = Raise RuntimeError
  ∧ ¬ raises_before_fitting ex_cyclic_run.
Proof.
  split; [apply ex_cyclic_has_cycle|].
  split; [vm_compute; reflexivity|].
  split; [vm_compute; reflexivity|].
  intros [_ Hall].
  assert (Exists is_fit (log ex_cyclic_run.2)) as Hfit.
  { apply (bool_decide_unpack _). vm_compute. exact I. }
  apply Exists_exists in Hfit as (ev & Hin & Hev).
  rewrite Forall_forall in Hall. by apply (Hall ev).
Qed.

(** ** Further runs of the scenario *)
























